(** * VSRTL core: reversible memories and the signal graph

    A shallow embedding of [core/vsrtl_memory.h] (BaseMemory, WrMemory and
    its reverse stack) and of [core/vsrtl_signal.h] (OutputSignal,
    InputSignal and the connection discipline), with the properties of the
    design document stated and proved over it. *)

From Stdlib Require Import ZArith Lia List String Ascii.
From Stdlib Require Init.Byte Strings.Byte.
From stdpp Require Import base option gmap list.

Local Open Scope Z_scope.

(** ** Machine words

    [VSRTL_VT_U] is the unsigned value type of the simulator.  The header
    that defines it is not part of the sources at hand; the design document
    fixes the native word at four bytes, so it is taken as a 32-bit unsigned
    integer: a [Z] in [0, 2^32) with the wrap-around written out. *)

Module Word.

Definition bits : Z := 32.
Definition modulus : Z := 2 ^ bits.

(** Conversion of an integer to [VSRTL_VT_U]. *)
Definition wrap (z : Z) : Z := z mod modulus.

(** [x << n] on [VSRTL_VT_U]. *)
Definition shl (x n : Z) : Z := wrap (Z.shiftl x n).

(** Implicit conversion [VSRTL_VT_U -> int] (the [size] argument of
    [write]). *)
Definition to_int (z : Z) : Z :=
  let u := wrap z in if u <? 2 ^ (bits - 1) then u else u - modulus.

(** [sizeof(VSRTL_VT_U)]. *)
Definition size_bytes : Z := 4.

End Word.

(** ** Bytes ([uint8_t]) *)

Module U8.

Definition t := Init.Byte.byte.

Definition to_Z (b : t) : Z := Z.of_N (Strings.Byte.to_N b).

(** Truncating conversion to [uint8_t]. *)
Definition of_Z (z : Z) : t :=
  match Strings.Byte.of_N (Z.to_N (Z.land z 255)) with
  | Some b => b
  | None => Init.Byte.x00
  end.

End U8.

(** ** AddressSpace *)

(** Modelled from the spec: the class [AddressSpace] of
    [vsrtl_addressspace.h], which is not among the sources at hand.  The
    design document gives its operations as [readMem(addr) -> value] and
    [writeMem(addr, value, widthBytes)]; the memory components below are
    written against this interface only. *)
Class AddressSpace (M : Type) := {
  readMem : M -> Z -> Z;
  writeMem : M -> Z -> Z -> Z -> M
}.

Module Sparse.

(** Modelled from the spec: the backing store of an [AddressSpace], a
    byte-addressable sparse byte storage.  An absent byte reads as zero. *)
Abbreviation t := (gmap Z U8.t).

Definition byte_at (m : t) (a : Z) : Z :=
  match m !! a with
  | Some b => U8.to_Z b
  | None => 0
  end.

(** Modelled from the spec: [writeMem(addr, value, widthBytes)] stores the
    requested number of bytes of the value, least significant byte at the
    lowest address, so that the write is confined to the requested byte
    span and a write of width 0 changes nothing.  Addresses are
    [VSRTL_VT_U] and wrap around. *)
Fixpoint writeBytes (n : nat) (m : t) (address value : Z) : t :=
  match n with
  | O => m
  | S n' =>
      writeBytes n' (<[address := U8.of_Z value]> m)
                 (Word.wrap (address + 1)) (Z.shiftr value 8)
  end.

Definition writeMem (m : t) (address value size : Z) : t :=
  writeBytes (Z.to_nat size) m (Word.wrap address) (Word.wrap value).

(** Modelled from the spec: [readMem(addr) -> value] returns the native
    word of four bytes that starts at the address. *)
Fixpoint readBytes (n : nat) (m : t) (address : Z) : Z :=
  match n with
  | O => 0
  | S n' =>
      Z.lor (byte_at m address)
            (Z.shiftl (readBytes n' m (Word.wrap (address + 1))) 8)
  end.

Definition readMem (m : t) (address : Z) : Z :=
  readBytes (Z.to_nat Word.size_bytes) m (Word.wrap address).

(** Two stores are indistinguishable when every byte reads the same. *)
Definition same_bytes (m1 m2 : t) : Prop :=
  forall a, byte_at m1 a = byte_at m2 a.

End Sparse.

#[export] Instance Sparse_AddressSpace : AddressSpace (gmap Z U8.t) := {
  readMem := Sparse.readMem;
  writeMem := Sparse.writeMem
}.

(** ** Memory components ([vsrtl_memory.h]) *)

Record MemoryEviction := mkMemoryEviction {
  writeEnable : bool;
  addr : Z;
  data : Z;
  width : Z
}.

Module Ports.

(** The values present on the input ports of a [WrMemory] at a clock edge:
    [static_cast<bool>(wr_en)], [addr.uValue()], [data_in.uValue()] and
    [wr_width.uValue()]. *)
Record t := mk {
  wr_en : bool;
  addr : Z;
  data_in : Z;
  wr_width : Z
}.

End Ports.

(** [std::deque::resize]: drops elements from the back, or appends
    value-initialised ones. *)
Definition deque_resize {A} (dflt : A) (n : nat) (q : list A) : list A :=
  take n q ++ replicate (n - length q) dflt.

Section Memory.

Context {M : Type} `{AddressSpace M}.

(** Template parameter [byteIndexed] of [BaseMemory] and [WrMemory]. *)
Variable byteIndexed : bool.

(** *** BaseMemory *)

Definition BaseMemory_index (address : Z) : Z :=
  if byteIndexed then address else Word.shl address 2.

Definition BaseMemory_read (m : M) (address : Z) : Z :=
  readMem m (BaseMemory_index address).

Definition BaseMemory_write (m : M) (address value size : Z) : M :=
  writeMem m (BaseMemory_index address) value size.

(** *** WrMemory

    [m_memory] is the address space the component was attached to with
    [setMemory]; [m_reverseStack] is the deque of undo records, front
    first; [reverseStackSize] is the capacity that the clocked-component
    base class reports through [reverseStackSize()]. *)
Record WrMemory := mkWrMemory {
  m_memory : M;
  m_reverseStack : list MemoryEviction;
  reverseStackSize : nat
}.

Definition read (w : WrMemory) (address : Z) : Z :=
  BaseMemory_read (m_memory w) address.

Definition write (w : WrMemory) (address value size : Z) : WrMemory :=
  {| m_memory := BaseMemory_write (m_memory w) address value size;
     m_reverseStack := m_reverseStack w;
     reverseStackSize := reverseStackSize w |}.

Definition reset (w : WrMemory) : WrMemory :=
  {| m_memory := m_memory w;
     m_reverseStack := [];
     reverseStackSize := reverseStackSize w |}.

Definition saveToStack (v : MemoryEviction) (w : WrMemory) : WrMemory :=
  let pushed := v :: m_reverseStack w in
  {| m_memory := m_memory w;
     m_reverseStack :=
       if (reverseStackSize w <? length pushed)%nat
       then removelast pushed else pushed;
     reverseStackSize := reverseStackSize w |}.

Definition save (p : Ports.t) (w : WrMemory) : WrMemory :=
  let writeEnable := Ports.wr_en p in
  let addr_v := Ports.addr p in
  let data_in_v := Ports.data_in p in
  let data_out_v := read w addr_v in
  let ev :=
    mkMemoryEviction writeEnable addr_v data_out_v (Ports.wr_width p) in
  let w' := saveToStack ev w in
  if writeEnable
  then write w' addr_v data_in_v (Word.to_int (Ports.wr_width p))
  else w'.

Definition reverse (w : WrMemory) : WrMemory :=
  match m_reverseStack w with
  | [] => w
  | lastEviction :: rest =>
      let w' :=
        if writeEnable lastEviction
        then write w (addr lastEviction) (data lastEviction)
                   (Word.to_int (width lastEviction))
        else w in
      {| m_memory := m_memory w';
         m_reverseStack := rest;
         reverseStackSize := reverseStackSize w' |}
  end.

Definition forceValue (address value : Z) (w : WrMemory) : WrMemory :=
  write w address value Word.size_bytes.

Definition reverseStackSizeChanged (w : WrMemory) : WrMemory :=
  if (reverseStackSize w <? length (m_reverseStack w))%nat
  then {| m_memory := m_memory w;
          m_reverseStack :=
            deque_resize (mkMemoryEviction false 0 0 0)
                         (length (m_reverseStack w)) (m_reverseStack w);
          reverseStackSize := reverseStackSize w |}
  else w.

(** The record that [save] builds at an edge, and the inverse action that
    [reverse] performs for a record. *)
Definition eviction_of (p : Ports.t) (w : WrMemory) : MemoryEviction :=
  mkMemoryEviction (Ports.wr_en p) (Ports.addr p) (read w (Ports.addr p))
                   (Ports.wr_width p).

Definition undo (ev : MemoryEviction) (m : M) : M :=
  if writeEnable ev
  then BaseMemory_write m (addr ev) (data ev) (Word.to_int (width ev))
  else m.

(** The records built along a sequence of edges, oldest first. *)
Fixpoint evictions_of (ps : list Ports.t) (w : WrMemory)
  : list MemoryEviction :=
  match ps with
  | [] => []
  | p :: ps' => eviction_of p w :: evictions_of ps' (save p w)
  end.

(** Sequences of edges and of step-backs. *)
Definition saves (ps : list Ports.t) (w : WrMemory) : WrMemory :=
  fold_left (fun acc p => save p acc) ps w.

Definition reverses (n : nat) (w : WrMemory) : WrMemory :=
  Nat.iter n reverse w.

End Memory.

(** An edge is narrow when it writes no more bytes than a word holds. *)
Definition narrow (p : Ports.t) : Prop :=
  Ports.wr_en p = true -> Word.to_int (Ports.wr_width p) <= Word.size_bytes.

Arguments WrMemory M : clear implicits.
Arguments mkWrMemory {M} _ _ _.

(** Concrete inputs used below: a store whose byte at address 4 is [0xff],
    a byte-indexed memory over it with an empty reverse stack of capacity
    one, an edge that writes five bytes at address 0, an edge that writes
    one byte there, and an edge that does not write. *)
Definition probe_space : gmap Z U8.t := {[ 4 := Init.Byte.xff ]}.

Definition probe_memory : WrMemory (gmap Z U8.t) :=
  mkWrMemory probe_space [] 1.

(** A memory holding three records whose capacity has just been set to
    one. *)
Definition crowded_memory : WrMemory (gmap Z U8.t) :=
  mkWrMemory probe_space
    [mkMemoryEviction true 8 0 4; mkMemoryEviction true 4 0 4;
     mkMemoryEviction true 0 0 4] 1.

Definition wide_edge : Ports.t := Ports.mk true 0 17 5.
Definition byte_edge : Ports.t := Ports.mk true 0 17 1.
Definition idle_edge : Ports.t := Ports.mk false 0 0 0.

(** ** Signals ([vsrtl_signal.h]) *)

(** Result of running a member function: it returns, it dereferences a null
    or a dead pointer, it stops on [assert(false)] after printing [err], or
    the recursion was cut off by the fuel of the model. *)
Inductive outcome (A : Type) : Type :=
| Done (a : A)
| NullDeref
| Dangling
| Aborted (err : string)
| NoFuel.

Arguments Done {A} a.
Arguments NullDeref {A}.
Arguments Dangling {A}.
Arguments Aborted {A} err.
Arguments NoFuel {A}.

Definition obind {A B} (x : outcome A) (k : A -> outcome B) : outcome B :=
  match x with
  | Done a => k a
  | NullDeref => NullDeref
  | Dangling => Dangling
  | Aborted err => Aborted err
  | NoFuel => NoFuel
  end.

Notation "x <- e ;; k" := (obind e (fun x => k))
  (at level 100, e at next level, right associativity).

(** Dereference of a pointer into a table of live objects. *)
Definition deref {A} (tbl : gmap nat A) (p : nat) : outcome A :=
  match tbl !! p with
  | Some a => Done a
  | None => Dangling
  end.

(** The type [T] of [value<T>()] and of the casting operators. *)
Inductive ValueType := AsInt | AsUnsigned | AsBool.

Inductive Value :=
| VInt (z : Z)
| VUnsigned (z : Z)
| VBool (b : bool).

(** Modelled from the spec: [accBVec] of [vsrtl_binutils.h], which is not
    among the sources at hand; the unsigned view of a bit vector whose bit 0
    is the least significant. *)
Fixpoint accBVec (v : list bool) : Z :=
  match v with
  | [] => 0
  | b :: r => Z.b2z b + 2 * accBVec r
  end.

(** Modelled from the spec: [signextend] of [vsrtl_binutils.h], which is not
    among the sources at hand; two's-complement sign extension from bit
    [W-1]. *)
Definition signextend (bitwidth : nat) (x : Z) : Z :=
  if Z.testbit x (Z.of_nat bitwidth - 1) then x - 2 ^ Z.of_nat bitwidth else x.

Module OutputSignal.

(** [m_parent] points to the owning component: signals cannot exist outside
    of components.  The propagation function plays no part in the
    connection discipline and is left out. *)
Record t := mk {
  m_name : string;
  m_parent : nat;
  m_value : list bool
}.

Definition getName (o : t) : string := m_name o.
Definition getParent (o : t) : nat := m_parent o.
Definition width (o : t) : nat := length (m_value o).

(** [static_cast<T>( *this )] through the three casting operators. *)
Definition value (T : ValueType) (o : t) : Value :=
  match T with
  | AsInt => VInt (signextend (width o) (accBVec (m_value o)))
  | AsUnsigned => VUnsigned (accBVec (m_value o))
  | AsBool => VBool (nth 0 (m_value o) false)
  end.

End OutputSignal.

(** The variant [std::variant<OutputSignal*, InputSignal*>]: an output
    pointer, possibly null, or the address of another input. *)
Inductive SignalRef :=
| ToOutput (arg : option nat)
| ToInput (arg : nat).

Module InputSignal.

Record t := mk {
  m_name : string;
  m_parent : nat;
  m_signal : SignalRef
}.

Definition getName (s : t) : string := m_name s.
Definition getParent (s : t) : nat := m_parent s.

End InputSignal.

(** [arg != nullptr]. *)
Definition not_nullptr {A} (arg : option A) : bool :=
  match arg with
  | Some _ => true
  | None => false
  end.

(** The objects of a design: the names of its components ([getName()] of a
    component is all the signals use), its output signals and its input
    signals, each table indexed by the address of the object. *)
Record Design := mkDesign {
  components : gmap nat string;
  outputs : gmap nat OutputSignal.t;
  inputs : gmap nat InputSignal.t
}.

Definition set_signal (d : Design) (i : nat) (r : SignalRef) : Design :=
  {| components := components d;
     outputs := outputs d;
     inputs :=
       alter (fun s => InputSignal.mk (InputSignal.m_name s)
                                      (InputSignal.m_parent s) r)
             i (inputs d) |}.

(** Constructor [InputSignal(parent, name)]: the variant starts as a null
    [OutputSignal*]. *)
Definition new_InputSignal (d : Design) (parent : nat) (name : string)
  : nat * Design :=
  let i := fresh (dom (inputs d)) in
  (i, {| components := components d;
         outputs := outputs d;
         inputs := <[i := InputSignal.mk name parent (ToOutput None)]>
                     (inputs d) |}).

(** Constructor [OutputSignal(parent, name)]: the value starts as
    [buildUnsignedArr<bitwidth>(0)]. *)
Definition new_OutputSignal (d : Design) (bitwidth : nat) (parent : nat)
  (name : string) : nat * Design :=
  let o := fresh (dom (outputs d)) in
  (o, {| components := components d;
         outputs := <[o := OutputSignal.mk name parent
                              (replicate bitwidth false)]> (outputs d);
         inputs := inputs d |}).

(** [InputSignal::value<T>()]. *)
Fixpoint value (T : ValueType) (fuel : nat) (d : Design) (this : nat)
  : outcome Value :=
  match fuel with
  | O => NoFuel
  | S fuel' =>
      s <- deref (inputs d) this ;;
      match InputSignal.m_signal s with
      | ToOutput None => NullDeref
      | ToOutput (Some arg) =>
          o <- deref (outputs d) arg ;; Done (OutputSignal.value T o)
      | ToInput arg => value T fuel' d arg
      end
  end.

(** [InputSignal::isConnected()]. *)
Fixpoint isConnected (fuel : nat) (d : Design) (this : nat) : outcome bool :=
  match fuel with
  | O => NoFuel
  | S fuel' =>
      s <- deref (inputs d) this ;;
      match InputSignal.m_signal s with
      | ToOutput arg => Done (not_nullptr arg)
      | ToInput arg => isConnected fuel' d arg
      end
  end.

(** [InputSignal::getConnectedParent()]. *)
Definition getConnectedParent (d : Design) (this : nat) : outcome nat :=
  s <- deref (inputs d) this ;;
  match InputSignal.m_signal s with
  | ToOutput None => NullDeref
  | ToOutput (Some arg) =>
      o <- deref (outputs d) arg ;; Done (OutputSignal.getParent o)
  | ToInput arg =>
      s' <- deref (inputs d) arg ;; Done (InputSignal.getParent s')
  end.

Definition nl : string := String (ascii_of_nat 10) EmptyString.
Definition tab : string := String (ascii_of_nat 9) EmptyString.

(** The text printed by [verifyIsNotConnected] before it stops. *)
Definition already_connected_error
  (name parent toThisSignal toThisComponent : string) : string :=
  ("ERROR! trying to connect an input which has already been connected."
   ++ nl ++ "Signal: " ++ tab ++ tab ++ "'" ++ name
   ++ "'" ++ nl ++ "Of component: " ++ tab ++ "'" ++ parent
   ++ "'" ++ nl ++ "Is already connected to " ++ nl
   ++ "Signal: " ++ tab ++ tab ++ "'" ++ toThisSignal
   ++ "'" ++ nl ++ "Of component: " ++ tab ++ "'" ++ toThisComponent
   ++ "'" ++ nl)%string.

(** The text that [verifyIsNotConnected] builds for an input it has found
    connected. *)
Definition already_connected_text (d : Design) (this : nat)
  (s : InputSignal.t) : outcome string :=
  parent <- deref (components d) (InputSignal.getParent s) ;;
  names <-
    match InputSignal.m_signal s with
    | ToOutput None => NullDeref
    | ToOutput (Some arg) =>
        o <- deref (outputs d) arg ;;
        c <- getConnectedParent d this ;;
        toThisComponent <- deref (components d) c ;;
        Done (OutputSignal.getName o, toThisComponent)
    | ToInput arg =>
        s' <- deref (inputs d) arg ;;
        toThisComponent <- deref (components d) (InputSignal.getParent s) ;;
        Done (InputSignal.getName s', toThisComponent)
    end ;;
  Done (already_connected_error (InputSignal.getName s) parent
                                (fst names) (snd names)).

(** [InputSignal::verifyIsNotConnected()]: what it writes to [std::cout]
    and how it ends.  [NDEBUG] tells whether the file is compiled with the
    macro [NDEBUG] defined: [assert(false)] stops the program when it is
    not, and expands to nothing when it is, so that the function returns
    after printing. *)
Definition verifyIsNotConnected (NDEBUG : bool) (d : Design) (this : nat)
  : string * outcome unit :=
  match deref (inputs d) this with
  | Done s =>
      let isConnected :=
        match InputSignal.m_signal s with
        | ToOutput arg => not_nullptr arg
        | ToInput _ => true
        end in
      if isConnected then
        match already_connected_text d this s with
        | Done err =>
            ((err ++ nl)%string, if NDEBUG then Done tt else Aborted err)
        | stopped => (EmptyString, _ <- stopped ;; Done tt)
        end
      else (EmptyString, Done tt)
  | stopped => (EmptyString, _ <- stopped ;; Done tt)
  end.

(** [InputSignal::connect], for both overloads: the state reached, what was
    written to [std::cout] and how the call ended. *)
Definition connect (NDEBUG : bool) (d : Design) (this : nat)
  (other : SignalRef) : Design * (string * outcome unit) :=
  match verifyIsNotConnected NDEBUG d this with
  | (cout, Done _) => (set_signal d this other, (cout, Done tt))
  | (cout, stopped) => (d, (cout, stopped))
  end.

Definition connect_input (NDEBUG : bool) (d : Design)
  (this otherInput : nat) : Design * (string * outcome unit) :=
  connect NDEBUG d this (ToInput otherInput).

Definition connect_output (NDEBUG : bool) (d : Design)
  (this output : nat) : Design * (string * outcome unit) :=
  connect NDEBUG d this (ToOutput (Some output)).

(** References that resolve: the signals a variant names are live objects,
    and so are the parents of all signals. *)
Definition ref_live (d : Design) (r : SignalRef) : Prop :=
  match r with
  | ToOutput None => True
  | ToOutput (Some arg) => is_Some (outputs d !! arg)
  | ToInput arg => is_Some (inputs d !! arg)
  end.

Record wf_design (d : Design) : Prop := {
  wf_inputs :
    forall i s, inputs d !! i = Some s ->
      is_Some (components d !! InputSignal.m_parent s) /\
      ref_live d (InputSignal.m_signal s);
  wf_outputs :
    forall o os, outputs d !! o = Some os ->
      is_Some (components d !! OutputSignal.m_parent os)
}.

(** [chain d i n o]: input [i] reaches the output [o] through [n]
    pass-through inputs. *)
Inductive chain (d : Design) : nat -> nat -> nat -> Prop :=
| chain_output i s o :
    inputs d !! i = Some s ->
    InputSignal.m_signal s = ToOutput (Some o) ->
    chain d i O o
| chain_input i s j n o :
    inputs d !! i = Some s ->
    InputSignal.m_signal s = ToInput j ->
    chain d j n o ->
    chain d i (S n) o.

(** Concrete design used below: a source component drives the input [0]
    of an outer component, which is passed through to the input [1] of an
    inner component; the input [2] has just been constructed. *)
Definition sample_design : Design :=
  {| components := <[2%nat := "src"%string]>
                     (<[1%nat := "inner"%string]>
                        (<[0%nat := "outer"%string]> ∅));
     outputs := <[0%nat := OutputSignal.mk "out" 2 [true; false; true]]> ∅;
     inputs := <[2%nat := InputSignal.mk "c" 1 (ToOutput None)]>
                 (<[1%nat := InputSignal.mk "b" 1 (ToInput 0)]>
                    (<[0%nat := InputSignal.mk "a" 0 (ToOutput (Some 0%nat))]>
                       ∅)) |}.

(** ** The rest of [vsrtl_signal.h]: output signals and the operators *)

(** A [std::function<std::array<bool, bitwidth>()>]: a closure that reads
    the design as it is when it is called. *)
Abbreviation Functor := (Design -> outcome (list bool)).

(** [OutputSignal::getFunctor()]: the closure [[=] { return m_value; }],
    which captures [this] and so reads the stored value at each call. *)
Definition getFunctor (this : nat) : Functor :=
  fun d => o <- deref (outputs d) this ;; Done (OutputSignal.m_value o).

(** A design together with the member [m_propagationFunction] of each of
    its output signals; an output without an entry holds an empty
    [std::function]. *)
Record Netlist := mkNetlist {
  design : Design;
  m_propagationFunction : gmap nat Functor
}.

(** [OutputSignal::hasPropagationFunction()]. *)
Definition hasPropagationFunction (n : Netlist) (this : nat) : bool :=
  not_nullptr (m_propagationFunction n !! this).

(** [OutputSignal::setPropagationFunction(f)]. *)
Definition setPropagationFunction (n : Netlist) (this : nat) (f : Functor)
  : Netlist :=
  {| design := design n;
     m_propagationFunction := <[this := f]> (m_propagationFunction n) |}.

(** [OutputSignal::connect(otherOutput)]. *)
Definition OutputSignal_connect (n : Netlist) (this otherOutput : nat)
  : Netlist :=
  setPropagationFunction n this (getFunctor otherOutput).

(** [OutputSignal::setValue(v)]. *)
Definition setValue (d : Design) (this : nat) (v : list bool) : Design :=
  {| components := components d;
     outputs :=
       alter (fun o => OutputSignal.mk (OutputSignal.m_name o)
                                       (OutputSignal.m_parent o) v)
             this (outputs d);
     inputs := inputs d |}.

(** How a call that may throw ends: it ends as a member function does, or
    the call of an empty [std::function] throws
    [std::bad_function_call]. *)
Inductive thrown (A : Type) : Type :=
| Returned (r : outcome A)
| bad_function_call.

Arguments Returned {A} r.
Arguments bad_function_call {A}.

(** [OutputSignal::propagate()]: [m_value = m_propagationFunction()]. *)
Definition propagate (n : Netlist) (this : nat) : thrown Netlist :=
  match m_propagationFunction n !! this with
  | None => bad_function_call
  | Some f =>
      Returned (v <- f (design n) ;;
                Done {| design := setValue (design n) this v;
                        m_propagationFunction := m_propagationFunction n |})
  end.

(** The three overloads of [operator>>]. *)
Definition connect_output_to_input (NDEBUG : bool) (d : Design)
  (fromThisOutput toThisInput : nat) : Design * (string * outcome unit) :=
  connect_output NDEBUG d toThisInput fromThisOutput.

Definition connect_input_to_input (NDEBUG : bool) (d : Design)
  (fromThisInput toThisInput : nat) : Design * (string * outcome unit) :=
  connect_input NDEBUG d toThisInput fromThisInput.

Definition connect_output_to_output (n : Netlist)
  (fromThisOutput toThisOutput : nat) : Netlist :=
  OutputSignal_connect n toThisOutput fromThisOutput.

(** ** The rest of [vsrtl_memory.h]: memories and the address space they
    point to *)

Module Ref.

Section Ref.

Context {M : Type} `{AddressSpace M}.

Variable byteIndexed : bool.

(** [BaseMemory::read] and [BaseMemory::write] through the pointer
    [m_memory], which is null until [setMemory]; the address spaces live in
    a table indexed by their address. *)
Definition read (spaces : gmap nat M) (m_memory : option nat) (address : Z)
  : outcome Z :=
  match m_memory with
  | None => NullDeref
  | Some mem =>
      m <- deref spaces mem ;; Done (BaseMemory_read byteIndexed m address)
  end.

Definition write (spaces : gmap nat M) (m_memory : option nat)
  (address value size : Z) : outcome (gmap nat M) :=
  match m_memory with
  | None => NullDeref
  | Some mem =>
      m <- deref spaces mem ;;
      Done (<[mem := BaseMemory_write byteIndexed m address value size]>
              spaces)
  end.

Record WrMemory := mkWrMemory {
  m_memory : option nat;
  m_reverseStack : list MemoryEviction;
  reverseStackSize : nat
}.

(** A new component: [m_memory = nullptr] and an empty deque. *)
Definition new_WrMemory (capacity : nat) : WrMemory :=
  mkWrMemory None [] capacity.

Definition setMemory (mem : option nat) (c : WrMemory) : WrMemory :=
  mkWrMemory mem (m_reverseStack c) (reverseStackSize c).

Definition memory (c : WrMemory) : option nat := m_memory c.

Definition reset (c : WrMemory) : WrMemory :=
  mkWrMemory (m_memory c) [] (reverseStackSize c).

Definition saveToStack (v : MemoryEviction) (c : WrMemory) : WrMemory :=
  let pushed := v :: m_reverseStack c in
  mkWrMemory (m_memory c)
    (if (reverseStackSize c <? length pushed)%nat
     then removelast pushed else pushed)
    (reverseStackSize c).

Definition save (p : Ports.t) (spaces : gmap nat M) (c : WrMemory)
  : outcome (gmap nat M * WrMemory) :=
  let writeEnable := Ports.wr_en p in
  let addr_v := Ports.addr p in
  let data_in_v := Ports.data_in p in
  data_out_v <- read spaces (m_memory c) addr_v ;;
  let ev :=
    mkMemoryEviction writeEnable addr_v data_out_v (Ports.wr_width p) in
  let c' := saveToStack ev c in
  if writeEnable
  then spaces' <- write spaces (m_memory c) addr_v data_in_v
                        (Word.to_int (Ports.wr_width p)) ;;
       Done (spaces', c')
  else Done (spaces, c').

Definition reverse (spaces : gmap nat M) (c : WrMemory)
  : outcome (gmap nat M * WrMemory) :=
  match m_reverseStack c with
  | [] => Done (spaces, c)
  | lastEviction :: rest =>
      spaces' <-
        (if writeEnable lastEviction
         then write spaces (m_memory c) (addr lastEviction)
                    (data lastEviction) (Word.to_int (width lastEviction))
         else Done spaces) ;;
      Done (spaces', mkWrMemory (m_memory c) rest (reverseStackSize c))
  end.

Definition forceValue (address value : Z) (spaces : gmap nat M)
  (c : WrMemory) : outcome (gmap nat M * WrMemory) :=
  spaces' <- write spaces (m_memory c) address value Word.size_bytes ;;
  Done (spaces', c).

(** [RdMemory]: the functor given to [data_out] reads at the address on
    the [addr] port. *)
Definition RdMemory_data_out (spaces : gmap nat M) (m_memory : option nat)
  (addr : Z) : outcome Z :=
  read spaces m_memory addr.

(** [MemoryAsyncRd]: a read-only and a write-capable sub-component, whose
    [addr] ports are both fed from the [addr] port of the composite. *)
Record MemoryAsyncRd := mkMemoryAsyncRd {
  _rd_mem : option nat;
  _wr_mem : WrMemory
}.

Definition MemoryAsyncRd_setMemory (mem : option nat) (a : MemoryAsyncRd)
  : MemoryAsyncRd :=
  mkMemoryAsyncRd mem (setMemory mem (_wr_mem a)).

Definition MemoryAsyncRd_memory (a : MemoryAsyncRd) : option nat :=
  memory (_wr_mem a).

End Ref.

End Ref.

(** The component seen together with the address space it points to (the
    state the member functions of an attached memory work on), and back. *)
Definition attach {M : Type} (m : M) (c : Ref.WrMemory) : WrMemory M :=
  mkWrMemory m (Ref.m_reverseStack c) (Ref.reverseStackSize c).

Definition detach {M : Type} (mem : option nat) (w : WrMemory M)
  : Ref.WrMemory :=
  Ref.mkWrMemory mem (m_reverseStack w) (reverseStackSize w).

(** A design in which the input [1] was given the input [0] as its source
    while the input [0] itself was never connected. *)
Definition stuck_design : Design :=
  {| components := <[0%nat := "top"%string]> ∅;
     outputs := ∅;
     inputs := <[1%nat := InputSignal.mk "q" 0 (ToInput 0)]>
                 (<[0%nat := InputSignal.mk "p" 0 (ToOutput None)]> ∅) |}.

(** Byte [k] of a word, byte 0 being the least significant. *)
Definition byte_of_word (x k : Z) : Z := Z.shiftr x (8 * k) mod 256.

(** * Properties *)

(** ** Words and bytes *)

Module WordFacts.

Lemma wrap_range z : 0 <= Word.wrap z < Word.modulus.
Proof. apply Z.mod_pos_bound. reflexivity. Qed.

Lemma wrap_idem z : Word.wrap (Word.wrap z) = Word.wrap z.
Proof. unfold Word.wrap. apply Z.mod_mod. discriminate. Qed.

Lemma wrap_small z : 0 <= z < Word.modulus -> Word.wrap z = z.
Proof. intros Hz. unfold Word.wrap. apply Z.mod_small. exact Hz. Qed.

Lemma to_int_small z : 0 <= z < 2 ^ (Word.bits - 1) -> Word.to_int z = z.
Proof.
  intros Hz. unfold Word.to_int.
  assert (Hm : 2 ^ (Word.bits - 1) < Word.modulus) by reflexivity.
  rewrite wrap_small by lia.
  destruct (Z.ltb_spec z (2 ^ (Word.bits - 1))); lia.
Qed.

Lemma to_int_bound z : Word.to_int z < 2 ^ (Word.bits - 1).
Proof.
  unfold Word.to_int. pose proof (wrap_range z) as Hr.
  destruct (Z.ltb_spec (Word.wrap z) (2 ^ (Word.bits - 1))); [lia|].
  assert (Hm : Word.modulus = 2 * 2 ^ (Word.bits - 1)) by reflexivity.
  assert (0 < 2 ^ (Word.bits - 1)) by reflexivity. lia.
Qed.

Lemma shl_2_mul4 x : Word.shl x 2 = Word.wrap (x * 4).
Proof. unfold Word.shl. rewrite Z.shiftl_mul_pow2 by lia. reflexivity. Qed.

End WordFacts.

Module U8Facts.

Lemma to_Z_range b : 0 <= U8.to_Z b < 256.
Proof.
  unfold U8.to_Z. pose proof (Strings.Byte.to_N_bounded b) as Hb. lia.
Qed.

Lemma land_255 z : Z.land z 255 = z mod 256.
Proof.
  change 255 with (Z.ones 8). rewrite Z.land_ones by lia. reflexivity.
Qed.

Lemma to_of_Z z : U8.to_Z (U8.of_Z z) = z mod 256.
Proof.
  unfold U8.to_Z, U8.of_Z. rewrite land_255.
  pose proof (Z.mod_pos_bound z 256 eq_refl) as Hr.
  destruct (Strings.Byte.of_N (Z.to_N (z mod 256))) as [b|] eqn:E.
  - apply Strings.Byte.to_of_N in E. rewrite E. lia.
  - apply Strings.Byte.of_N_None_iff in E. lia.
Qed.

End U8Facts.

(** ** The sparse byte store *)

Module SparseFacts.

Import Sparse.

Lemma byte_at_range (m : gmap Z U8.t) a : 0 <= byte_at m a < 256.
Proof.
  unfold byte_at. destruct (m !! a); [apply U8Facts.to_Z_range | lia].
Qed.

Lemma byte_at_insert (m : gmap Z U8.t) a v b :
  byte_at (<[a := U8.of_Z v]> m) b
  = if decide (a = b) then v mod 256 else byte_at m b.
Proof.
  unfold byte_at. rewrite lookup_insert.
  destruct (decide (a = b)); [apply U8Facts.to_of_Z | reflexivity].
Qed.

(** A write touches the bytes of its span and no other. *)
Lemma byte_at_writeBytes n : forall (m : gmap Z U8.t) a v b,
  Z.of_nat n <= Word.modulus ->
  0 <= a < Word.modulus ->
  0 <= b < Word.modulus ->
  byte_at (writeBytes n m a v) b
  = if (b - a) mod Word.modulus <? Z.of_nat n
    then Z.shiftr v (8 * ((b - a) mod Word.modulus)) mod 256
    else byte_at m b.
Proof.
  induction n as [|n IH]; intros m a v b Hn Ha Hb.
  - simpl. pose proof (Z.mod_pos_bound (b - a) Word.modulus eq_refl).
    destruct (Z.ltb_spec ((b - a) mod Word.modulus) (Z.of_nat 0));
      [lia | reflexivity].
  - cbn [writeBytes].
    rewrite IH; [| lia | apply WordFacts.wrap_range | exact Hb].
    rewrite byte_at_insert.
    unfold Word.wrap. rewrite Zminus_mod_idemp_r.
    unfold Word.modulus, Word.bits in *. change (2 ^ 32) with 4294967296 in *.
    destruct (decide (a = b)) as [->|Hne].
    + replace (b - (b + 1)) with (-1) by lia.
      replace (b - b) with 0 by lia.
      change (-1 mod 4294967296) with 4294967295.
      change (0 mod 4294967296) with 0.
      destruct (Z.ltb_spec 4294967295 (Z.of_nat n)); [lia|].
      destruct (Z.ltb_spec 0 (Z.of_nat (S n))); [|lia].
      rewrite Z.shiftr_0_r. reflexivity.
    + assert (Hoff : (b - (a + 1)) mod 4294967296
                     = (b - a) mod 4294967296 - 1).
      { Z.div_mod_to_equations. lia. }
      rewrite Hoff.
      assert (1 <= (b - a) mod 4294967296) by (Z.div_mod_to_equations; lia).
      destruct (Z.ltb_spec ((b - a) mod 4294967296 - 1) (Z.of_nat n));
        destruct (Z.ltb_spec ((b - a) mod 4294967296) (Z.of_nat (S n)));
        try lia.
      rewrite Z.shiftr_shiftr by lia. f_equal. f_equal. lia.
Qed.

Lemma byte_at_writeBytes_outside n : forall (m : gmap Z U8.t) a v b,
  0 <= a < Word.modulus ->
  ~ (0 <= b < Word.modulus) ->
  byte_at (writeBytes n m a v) b = byte_at m b.
Proof.
  induction n as [|n IH]; intros m a v b Ha Hb; [reflexivity|].
  cbn [writeBytes]. rewrite IH; [| apply WordFacts.wrap_range | exact Hb].
  rewrite byte_at_insert. destruct (decide (a = b)); [lia | reflexivity].
Qed.

(** Writing the same bytes into indistinguishable stores keeps them
    indistinguishable. *)
Lemma writeMem_same_bytes (m1 m2 : gmap Z U8.t) a v size :
  size <= Word.modulus ->
  same_bytes m1 m2 ->
  same_bytes (writeMem m1 a v size) (writeMem m2 a v size).
Proof.
  intros Hsz Heq b. unfold writeMem.
  pose proof (WordFacts.wrap_range a) as Ha.
  assert (Hn : Z.of_nat (Z.to_nat size) <= Word.modulus).
  { assert (0 <= Word.modulus) by (unfold Word.modulus, Word.bits; lia). lia. }
  destruct (decide (0 <= b < Word.modulus)) as [Hb|Hb].
  - rewrite !byte_at_writeBytes by assumption.
    destruct (_ <? _); [reflexivity | apply Heq].
  - rewrite !byte_at_writeBytes_outside by assumption. apply Heq.
Qed.

Lemma readBytes_same_bytes n : forall (m1 m2 : gmap Z U8.t) a,
  same_bytes m1 m2 -> readBytes n m1 a = readBytes n m2 a.
Proof.
  induction n as [|n IH]; intros m1 m2 a Heq; [reflexivity|].
  cbn [readBytes]. rewrite (Heq a), (IH m1 m2) by exact Heq. reflexivity.
Qed.

Lemma readMem_same_bytes (m1 m2 : gmap Z U8.t) a :
  same_bytes m1 m2 -> readMem m1 a = readMem m2 a.
Proof. intros Heq. unfold readMem. apply readBytes_same_bytes, Heq. Qed.

Lemma lor_byte b r : 0 <= b < 256 -> Z.lor b (Z.shiftl r 8) = b + 256 * r.
Proof.
  intros Hb. rewrite Z.shiftl_mul_pow2 by lia.
  rewrite <- Z.add_nocarry_lor; [change (2 ^ 8) with 256; lia|].
  rewrite <- (Z.mod_small b (2 ^ 8)) by (change (2 ^ 8) with 256; lia).
  rewrite <- Z.shiftl_mul_pow2 by lia.
  apply Z.bits_inj'. intros n Hn.
  rewrite Z.land_spec, Z.bits_0.
  destruct (Z.lt_ge_cases n 8).
  - rewrite Z.shiftl_spec_low by lia. apply andb_false_r.
  - rewrite Z.mod_pow2_bits_high by lia. reflexivity.
Qed.

Lemma readBytes_range n : forall (m : gmap Z U8.t) a,
  0 <= readBytes n m a < 256 ^ Z.of_nat n.
Proof.
  induction n as [|n IH]; intros m a.
  - simpl. lia.
  - cbn [readBytes]. pose proof (byte_at_range m a) as Hb.
    rewrite lor_byte by exact Hb.
    specialize (IH m (Word.wrap (a + 1))).
    rewrite Nat2Z.inj_succ, Z.pow_succ_r by lia. lia.
Qed.

(** Byte [k] of the word read at [a] is the byte stored at [a + k]. *)
Lemma readBytes_byte n : forall (m : gmap Z U8.t) a k,
  0 <= k < Z.of_nat n ->
  Z.shiftr (readBytes n m a) (8 * k) mod 256
  = byte_at m (if k =? 0 then a else Word.wrap (a + k)).
Proof.
  induction n as [|n IH]; intros m a k Hk; [lia|].
  cbn [readBytes]. pose proof (byte_at_range m a) as Hb.
  rewrite lor_byte by exact Hb.
  destruct (Z.eqb_spec k 0) as [->|Hk0].
  - rewrite Z.shiftr_0_r, (Z.mul_comm 256), Z.mod_add by lia.
    apply Z.mod_small, Hb.
  - replace (8 * k) with (8 + 8 * (k - 1)) by lia.
    rewrite <- Z.shiftr_shiftr by lia.
    rewrite (Z.shiftr_div_pow2 _ 8) by lia. change (2 ^ 8) with 256.
    replace ((byte_at m a + 256 * readBytes n m (Word.wrap (a + 1))) / 256)
      with (readBytes n m (Word.wrap (a + 1))).
    2:{ rewrite (Z.mul_comm 256), Z.div_add by lia.
        rewrite (Z.div_small (byte_at m a)) by exact Hb. lia. }
    rewrite IH by lia.
    destruct (Z.eqb_spec (k - 1) 0) as [E|E].
    + replace k with 1 by lia. reflexivity.
    + f_equal. unfold Word.wrap. rewrite Zplus_mod_idemp_l. f_equal. lia.
Qed.

End SparseFacts.

(** ** The reverse stack, for any address space *)

Section StackFacts.

Context {M : Type} `{AddressSpace M}.
Variable byteIndexed : bool.

Lemma save_memory p (w : WrMemory M) :
  m_memory (save byteIndexed p w)
  = if Ports.wr_en p
    then BaseMemory_write byteIndexed (m_memory w) (Ports.addr p)
           (Ports.data_in p) (Word.to_int (Ports.wr_width p))
    else m_memory w.
Proof. unfold save. destruct (Ports.wr_en p); reflexivity. Qed.

Lemma save_stack p (w : WrMemory M) :
  m_reverseStack (save byteIndexed p w)
  = m_reverseStack (saveToStack (eviction_of byteIndexed p w) w).
Proof. unfold save, eviction_of. destruct (Ports.wr_en p); reflexivity. Qed.

Lemma save_capacity p (w : WrMemory M) :
  reverseStackSize (save byteIndexed p w) = reverseStackSize w.
Proof. unfold save. destruct (Ports.wr_en p); reflexivity. Qed.

Lemma removelast_take {A} (l : list A) :
  removelast l = take (length l - 1) l.
Proof.
  induction l as [|x [|y l] IH]; [reflexivity | reflexivity |].
  change (removelast (x :: y :: l)) with (x :: removelast (y :: l)).
  rewrite IH. cbn [length].
  replace (S (S (length l)) - 1)%nat with (S (S (length l) - 1)) by lia.
  reflexivity.
Qed.

(** Below the capacity the push keeps the newest [K] records. *)
Lemma saveToStack_take v (w : WrMemory M) :
  (length (m_reverseStack w) <= reverseStackSize w)%nat ->
  m_reverseStack (saveToStack v w)
  = take (reverseStackSize w) (v :: m_reverseStack w).
Proof.
  intros Hle. unfold saveToStack. cbn [m_reverseStack].
  destruct (Nat.ltb_spec (reverseStackSize w) (length (v :: m_reverseStack w)))
    as [Hlt|Hge].
  - rewrite removelast_take. f_equal. cbn [length] in *. lia.
  - rewrite take_ge by exact Hge. reflexivity.
Qed.

(** The pushed record stays at the front unless the push emptied the
    stack. *)
Lemma saveToStack_front v (w : WrMemory M) :
  m_reverseStack (saveToStack v w) <> [] ->
  exists rest, m_reverseStack (saveToStack v w) = v :: rest.
Proof.
  unfold saveToStack. cbn [m_reverseStack].
  destruct (_ <? _)%nat; [| eauto].
  destruct (m_reverseStack w) as [|x l]; [intros Hne; contradiction Hne; reflexivity|].
  intros _. eexists. reflexivity.
Qed.

Lemma saveToStack_nonempty v (w : WrMemory M) :
  m_reverseStack (saveToStack v w) <> []
  <-> (1 <= reverseStackSize w)%nat \/ m_reverseStack w <> [].
Proof.
  unfold saveToStack. cbn [m_reverseStack].
  destruct (Nat.ltb_spec (reverseStackSize w) (length (v :: m_reverseStack w)))
    as [Hlt|Hge]; destruct (m_reverseStack w) as [|x l]; cbn in *;
    split; intros Hx; try discriminate; try (left; lia);
    try (right; discriminate); try congruence.
  destruct Hx as [Hx|Hx]; [lia | congruence].
Qed.

Lemma reverse_cons ev rest (w : WrMemory M) :
  m_reverseStack w = ev :: rest ->
  reverse byteIndexed w
  = mkWrMemory (undo byteIndexed ev (m_memory w)) rest (reverseStackSize w).
Proof.
  intros Hs. unfold reverse, undo. rewrite Hs.
  destruct (writeEnable ev); reflexivity.
Qed.

Lemma reverse_nil (w : WrMemory M) :
  m_reverseStack w = [] -> reverse byteIndexed w = w.
Proof. intros Hs. unfold reverse. rewrite Hs. reflexivity. Qed.

Lemma reverses_S n (w : WrMemory M) :
  reverses byteIndexed (S n) w
  = reverses byteIndexed n (reverse byteIndexed w).
Proof. unfold reverses. apply Nat.iter_succ_r. Qed.

Lemma reverses_app evs : forall rest (w : WrMemory M),
  m_reverseStack w = evs ++ rest ->
  reverses byteIndexed (length evs) w
  = mkWrMemory
      (fold_left (fun m ev => undo byteIndexed ev m) evs (m_memory w))
      rest (reverseStackSize w).
Proof.
  induction evs as [|ev evs IH]; intros rest w Hs.
  - destruct w; simpl in *. subst. reflexivity.
  - cbn [length]. rewrite reverses_S.
    rewrite (reverse_cons ev (evs ++ rest)) by exact Hs.
    rewrite (IH rest) by reflexivity. reflexivity.
Qed.

End StackFacts.

(** ** Write-back on the sparse store *)

Section SparseMemory.

Import Sparse.

Variable byteIndexed : bool.

Lemma same_bytes_refl (m : gmap Z U8.t) : same_bytes m m.
Proof. intros a. reflexivity. Qed.

Lemma same_bytes_trans (m1 m2 m3 : gmap Z U8.t) :
  same_bytes m1 m2 -> same_bytes m2 m3 -> same_bytes m1 m3.
Proof. intros H12 H23 a. rewrite (H12 a). apply H23. Qed.

(** Writing back the word read before a write of at most four bytes
    restores every byte. *)
Lemma write_back (m : gmap Z U8.t) a d size :
  size <= Word.size_bytes ->
  same_bytes (writeMem (writeMem m a d size) a (readMem m a) size) m.
Proof.
  intros Hsz b. unfold writeMem, readMem.
  pose proof (WordFacts.wrap_range a) as Ha.
  set (a' := Word.wrap a) in *.
  assert (Hn : Z.of_nat (Z.to_nat size) <= 4) by (unfold Word.size_bytes in Hsz; lia).
  assert (Hn' : Z.of_nat (Z.to_nat size) <= Word.modulus).
  { unfold Word.modulus, Word.bits. lia. }
  destruct (decide (0 <= b < Word.modulus)) as [Hb|Hb].
  2:{ rewrite !SparseFacts.byte_at_writeBytes_outside by assumption.
      reflexivity. }
  rewrite !SparseFacts.byte_at_writeBytes by assumption.
  destruct (Z.ltb_spec ((b - a') mod Word.modulus) (Z.of_nat (Z.to_nat size)))
    as [Hlt|Hge]; [|reflexivity].
  pose proof (SparseFacts.readBytes_range (Z.to_nat Word.size_bytes) m a') as Hr.
  change (256 ^ Z.of_nat (Z.to_nat Word.size_bytes)) with Word.modulus in Hr.
  rewrite WordFacts.wrap_small by exact Hr.
  pose proof (Z.mod_pos_bound (b - a') Word.modulus eq_refl) as Hoff.
  rewrite SparseFacts.readBytes_byte
    by (change (Z.of_nat (Z.to_nat Word.size_bytes)) with 4; lia).
  f_equal.
  unfold Word.wrap, Word.modulus, Word.bits in *.
  change (2 ^ 32) with 4294967296 in *.
  destruct (Z.eqb_spec ((b - a') mod 4294967296) 0) as [E|E].
  - Z.div_mod_to_equations. lia.
  - rewrite Zplus_mod_idemp_r. replace (a' + (b - a')) with b by lia.
    apply Z.mod_small. exact Hb.
Qed.

Lemma undo_same_bytes ev (m1 m2 : gmap Z U8.t) :
  same_bytes m1 m2 ->
  same_bytes (undo byteIndexed ev m1) (undo byteIndexed ev m2).
Proof.
  intros Heq. unfold undo, BaseMemory_write.
  destruct (writeEnable ev); [|exact Heq].
  apply SparseFacts.writeMem_same_bytes; [|exact Heq].
  pose proof (WordFacts.to_int_bound (width ev)) as Hb.
  assert (2 ^ (Word.bits - 1) < Word.modulus) by reflexivity. lia.
Qed.

(** The record of a narrow edge undoes the edge. *)
Lemma undo_eviction p (w : WrMemory (gmap Z U8.t)) :
  narrow p ->
  same_bytes
    (undo byteIndexed (eviction_of byteIndexed p w)
          (m_memory (save byteIndexed p w)))
    (m_memory w).
Proof.
  intros Hp. rewrite save_memory. unfold undo, eviction_of, narrow in *.
  cbn [writeEnable addr data width].
  destruct (Ports.wr_en p); [|apply same_bytes_refl].
  unfold read, BaseMemory_write, BaseMemory_read.
  apply write_back. apply Hp. reflexivity.
Qed.

Lemma undo_evictions ps : forall (w : WrMemory (gmap Z U8.t)),
  Forall narrow ps ->
  same_bytes
    (fold_left (fun m ev => undo byteIndexed ev m)
               (rev (evictions_of byteIndexed ps w))
               (m_memory (saves byteIndexed ps w)))
    (m_memory w).
Proof.
  induction ps as [|p ps IH]; intros w Hps.
  - apply same_bytes_refl.
  - inversion Hps as [|? ? Hp Hps']; subst.
    cbn [evictions_of rev]. rewrite fold_left_app. cbn [fold_left].
    change (saves byteIndexed (p :: ps) w)
      with (saves byteIndexed ps (save byteIndexed p w)).
    eapply same_bytes_trans; [| apply undo_eviction; exact Hp].
    apply undo_same_bytes. apply IH. exact Hps'.
Qed.

Lemma saves_capacity ps : forall (w : WrMemory (gmap Z U8.t)),
  reverseStackSize (saves byteIndexed ps w) = reverseStackSize w.
Proof.
  induction ps as [|p ps IH]; intros w; [reflexivity|].
  change (saves byteIndexed (p :: ps) w)
    with (saves byteIndexed ps (save byteIndexed p w)).
  rewrite IH. apply save_capacity.
Qed.

Lemma take_app_take {A} n (l1 l2 : list A) :
  take n (l1 ++ take n l2) = take n (l1 ++ l2).
Proof.
  rewrite !take_app, take_take. do 2 f_equal. lia.
Qed.

(** Started within the capacity, the stack holds the newest records, at
    most as many as the capacity. *)
Lemma saves_stack ps : forall (w : WrMemory (gmap Z U8.t)),
  (length (m_reverseStack w) <= reverseStackSize w)%nat ->
  m_reverseStack (saves byteIndexed ps w)
  = take (reverseStackSize w)
         (rev (evictions_of byteIndexed ps w) ++ m_reverseStack w).
Proof.
  induction ps as [|p ps IH]; intros w Hle.
  - cbn. rewrite take_ge by exact Hle. reflexivity.
  - change (saves byteIndexed (p :: ps) w)
      with (saves byteIndexed ps (save byteIndexed p w)).
    assert (Hs : m_reverseStack (save byteIndexed p w)
                 = take (reverseStackSize w)
                        (eviction_of byteIndexed p w :: m_reverseStack w)).
    { rewrite save_stack. apply saveToStack_take. exact Hle. }
    rewrite IH; rewrite save_capacity, Hs.
    + rewrite take_app_take. cbn [evictions_of rev].
      rewrite <- app_assoc. reflexivity.
    + rewrite length_take. lia.
Qed.

End SparseMemory.

(** ** Claims about the memory components *)

(** The scenario of the design document: a byte [0x11] written at address
    [0x1000] with width 1 reads back after the edge, and one [reverse()]
    brings the earlier value back. *)
Example write_edge_then_reverse :
  let w := mkWrMemory (∅ : gmap Z U8.t) [] 100 in
  let p := Ports.mk true 4096 17 1 in
  read true w 4096 = 0 /\
  read true (save true p w) 4096 = 17 /\
  read true (reverse true (save true p w)) 4096 = 0.
Proof. repeat split. Qed.

(** X25: for a [WrMemory] over the sparse address space, in either
    indexing mode, [save()] followed at once by [reverse()] restores the
    contents observable through [read()] to their state before the
    [save()], for every memory state and every port configuration of a
    narrow edge (one that, when it writes, writes at most the four bytes of
    a word), provided the record pushed by the [save()] is still on the
    stack. *)
Theorem save_reverse_restores_narrow (byteIndexed : bool)
  (w : WrMemory (gmap Z U8.t)) (p : Ports.t) :
  narrow p ->
  m_reverseStack (save byteIndexed p w) <> [] ->
  forall a,
    read byteIndexed (reverse byteIndexed (save byteIndexed p w)) a
    = read byteIndexed w a.
Proof.
  intros Hp Hne a.
  rewrite save_stack in Hne.
  destruct (saveToStack_front _ _ Hne) as [rest Hrest].
  rewrite <- save_stack in Hrest.
  rewrite (reverse_cons byteIndexed _ rest) by exact Hrest.
  unfold read, BaseMemory_read. cbn [m_memory].
  apply SparseFacts.readMem_same_bytes, undo_eviction, Hp.
Qed.

Lemma save_reverse_restores_narrow_witness :
  narrow byte_edge /\
  m_reverseStack (save true byte_edge probe_memory) <> [] /\
  forall a,
    read true (reverse true (save true byte_edge probe_memory)) a
    = read true probe_memory a.
Proof.
  assert (Hn : narrow byte_edge) by (intros _; vm_compute; discriminate).
  assert (Hs : m_reverseStack (save true byte_edge probe_memory) <> [])
    by (vm_compute; discriminate).
  split; [exact Hn | split; [exact Hs |]].
  exact (save_reverse_restores_narrow true probe_memory byte_edge Hn Hs).
Defined.

(** X26: with the capacity fixed at [K] and a stack within it, after
    [K+1] consecutive [save()] calls, of which the last [K] are narrow
    edges, [K] consecutive [reverse()] calls restore the memory observable
    through [read()] to its state after the first [save()], a further
    [reverse()] changes nothing, and the stack holds at most [K] records
    after every one of the [save()] calls. *)
Theorem capacity_window_narrow (byteIndexed : bool) (K : nat)
  (w : WrMemory (gmap Z U8.t)) (p : Ports.t) (ps : list Ports.t) :
  reverseStackSize w = K ->
  (length (m_reverseStack w) <= K)%nat ->
  length ps = K ->
  Forall narrow ps ->
  (forall a,
     read byteIndexed
       (reverses byteIndexed K
          (saves byteIndexed ps (save byteIndexed p w))) a
     = read byteIndexed (save byteIndexed p w) a) /\
  reverses byteIndexed (S K) (saves byteIndexed ps (save byteIndexed p w))
  = reverses byteIndexed K (saves byteIndexed ps (save byteIndexed p w)) /\
  (forall n,
     (length (m_reverseStack (saves byteIndexed (take n (p :: ps)) w))
      <= K)%nat).
Proof.
  intros HK Hle Hlen Hps.
  set (w1 := save byteIndexed p w).
  assert (HK1 : reverseStackSize w1 = K)
    by (unfold w1; rewrite save_capacity; exact HK).
  assert (Hle1 : (length (m_reverseStack w1) <= reverseStackSize w1)%nat).
  { unfold w1. rewrite save_capacity, save_stack, saveToStack_take by lia.
    rewrite length_take. lia. }
  assert (Hevs : length (rev (evictions_of byteIndexed ps w1)) = K).
  { rewrite length_rev. rewrite <- Hlen. clear.
    generalize w1. induction ps as [|q qs IH]; intros w0; [reflexivity|].
    cbn [evictions_of length]. rewrite IH. reflexivity. }
  assert (Hstack : m_reverseStack (saves byteIndexed ps w1)
                   = rev (evictions_of byteIndexed ps w1) ++ []).
  { rewrite saves_stack by exact Hle1. rewrite HK1, app_nil_r.
    rewrite take_app_le by lia. apply take_ge. lia. }
  assert (Hrev : reverses byteIndexed K (saves byteIndexed ps w1)
                 = mkWrMemory
                     (fold_left (fun m ev => undo byteIndexed ev m)
                        (rev (evictions_of byteIndexed ps w1))
                        (m_memory (saves byteIndexed ps w1)))
                     [] (reverseStackSize (saves byteIndexed ps w1))).
  { rewrite <- Hevs at 1. apply reverses_app. exact Hstack. }
  split; [|split].
  - intros a. rewrite Hrev. unfold read, BaseMemory_read. cbn [m_memory].
    apply SparseFacts.readMem_same_bytes, undo_evictions, Hps.
  - change (reverses byteIndexed (S K) (saves byteIndexed ps w1))
      with (reverse byteIndexed
              (reverses byteIndexed K (saves byteIndexed ps w1))).
    apply reverse_nil. rewrite Hrev. reflexivity.
  - intros n. rewrite saves_stack by lia. rewrite length_take. lia.
Qed.

Lemma capacity_window_narrow_witness :
  reverseStackSize probe_memory = 1%nat /\
  (length (m_reverseStack probe_memory) <= 1)%nat /\
  length [byte_edge] = 1%nat /\
  Forall narrow [byte_edge] /\
  (forall a,
     read true (reverses true 1 (saves true [byte_edge]
                                   (save true idle_edge probe_memory))) a
     = read true (save true idle_edge probe_memory) a) /\
  reverses true 2 (saves true [byte_edge] (save true idle_edge probe_memory))
  = reverses true 1 (saves true [byte_edge]
                       (save true idle_edge probe_memory)) /\
  (forall n,
     (length (m_reverseStack
                (saves true (take n [idle_edge; byte_edge]) probe_memory))
      <= 1)%nat).
Proof.
  assert (H1 : reverseStackSize probe_memory = 1%nat) by reflexivity.
  assert (H2 : (length (m_reverseStack probe_memory) <= 1)%nat)
    by (simpl; lia).
  assert (H3 : length [byte_edge] = 1%nat) by reflexivity.
  assert (H4 : Forall narrow [byte_edge]).
  { constructor; [intros _; vm_compute; discriminate | constructor]. }
  split; [exact H1 | split; [exact H2 | split; [exact H3 | split; [exact H4 |]]]].
  exact (capacity_window_narrow true 1 probe_memory idle_edge [byte_edge]
           H1 H2 H3 H4).
Defined.

(** C4: the code does not trim.  When the configured capacity is below the
    number of stored records, [reverseStackSizeChanged] resizes the deque to
    its own size, so every record stays and the stack is left larger than
    the capacity. *)
Theorem shrink_does_not_trim {M : Type} `{AddressSpace M} (w : WrMemory M) :
  (reverseStackSize w < length (m_reverseStack w))%nat ->
  reverseStackSizeChanged w = w /\
  (reverseStackSize (reverseStackSizeChanged w)
   < length (m_reverseStack (reverseStackSizeChanged w)))%nat.
Proof.
  intros Hlt. unfold reverseStackSizeChanged.
  destruct (Nat.ltb_spec (reverseStackSize w) (length (m_reverseStack w)))
    as [_|Hge]; [|lia].
  unfold deque_resize.
  rewrite take_ge, Nat.sub_diag, app_nil_r by lia.
  destruct w; split; [reflexivity | exact Hlt].
Qed.

Lemma shrink_does_not_trim_witness :
  (reverseStackSize crowded_memory
   < length (m_reverseStack crowded_memory))%nat /\
  reverseStackSizeChanged crowded_memory = crowded_memory /\
  (reverseStackSize (reverseStackSizeChanged crowded_memory)
   < length (m_reverseStack (reverseStackSizeChanged crowded_memory)))%nat.
Proof.
  assert (Hlt : (reverseStackSize crowded_memory
                 < length (m_reverseStack crowded_memory))%nat)
    by (simpl; lia).
  split; [exact Hlt |].
  exact (shrink_does_not_trim crowded_memory Hlt).
Defined.

(** C7: [reset()] empties the reverse stack whatever it held, so [reset()]
    followed by [reverse()] leaves the memory as it was. *)
Theorem reset_then_reverse {M : Type} `{AddressSpace M}
  (byteIndexed : bool) (w : WrMemory M) :
  m_reverseStack (reset w) = [] /\
  reverse byteIndexed (reset w) = reset w /\
  m_memory (reverse byteIndexed (reset w)) = m_memory w.
Proof. repeat split. Qed.

(** C9: a byte-indexed [BaseMemory] reads and writes the address space at
    the address it is given; a word-indexed one reads and writes it at the
    address shifted left by 2, which is the address times 4 in
    [VSRTL_VT_U] arithmetic.  The mode is a parameter of the memory
    component: one and the same address space serves both. *)
Theorem BaseMemory_addressing {M : Type} `{AddressSpace M}
  (m : M) (a value size : Z) :
  BaseMemory_read true m a = readMem m a /\
  BaseMemory_write true m a value size = writeMem m a value size /\
  BaseMemory_read false m a = readMem m (Word.shl a 2) /\
  BaseMemory_write false m a value size
  = writeMem m (Word.shl a 2) value size /\
  Word.shl a 2 = (a * 4) mod 2 ^ 32.
Proof.
  repeat split. apply WordFacts.shl_2_mul4.
Qed.

(** ** Claims about the signal graph *)

Lemma wf_sample_design : wf_design sample_design.
Proof.
  split.
  - apply (map_Forall_insert_2
             (fun _ s => is_Some (components sample_design
                                    !! InputSignal.m_parent s)
                         /\ ref_live sample_design (InputSignal.m_signal s))).
    { split; [eexists; reflexivity | exact I]. }
    apply map_Forall_insert_2.
    { split; eexists; reflexivity. }
    apply map_Forall_insert_2.
    { split; eexists; reflexivity. }
    apply map_Forall_empty.
  - apply (map_Forall_insert_2
             (fun _ os => is_Some (components sample_design
                                     !! OutputSignal.m_parent os))).
    { eexists; reflexivity. }
    apply map_Forall_empty.
Qed.

(** The first [connect()] of an input goes through, prints nothing and
    stores the reference, in either build. *)
Lemma connect_first_succeeds (NDEBUG : bool) (d : Design) (this : nat)
  (s : InputSignal.t) (other : SignalRef) :
  inputs d !! this = Some s ->
  InputSignal.m_signal s = ToOutput None ->
  connect NDEBUG d this other
  = (set_signal d this other, (EmptyString, Done tt)) /\
  InputSignal.m_signal <$> inputs (set_signal d this other) !! this
  = Some other.
Proof.
  intros Hs Hsig. unfold connect, verifyIsNotConnected, deref.
  rewrite Hs, Hsig. cbn [not_nullptr].
  split; [reflexivity|].
  unfold set_signal. cbn [inputs]. rewrite lookup_alter_eq, Hs. reflexivity.
Qed.

(** The text for an input whose reference is an output, and for one whose
    reference is another input. *)
Lemma text_for_output (d : Design) (this : nat) (s : InputSignal.t)
  parent o os c :
  inputs d !! this = Some s ->
  components d !! InputSignal.m_parent s = Some parent ->
  InputSignal.m_signal s = ToOutput (Some o) ->
  outputs d !! o = Some os ->
  components d !! OutputSignal.m_parent os = Some c ->
  already_connected_text d this s
  = Done (already_connected_error (InputSignal.m_name s) parent
            (OutputSignal.m_name os) c).
Proof.
  intros Hs Hparent Hsig Hos Hc.
  unfold already_connected_text, getConnectedParent, deref.
  unfold InputSignal.getParent, OutputSignal.getParent.
  rewrite Hparent. cbn [obind]. rewrite Hs. cbn [obind].
  rewrite Hsig, Hos. cbn [obind]. rewrite Hc. reflexivity.
Qed.

Lemma text_for_input (d : Design) (this : nat) (s : InputSignal.t)
  parent j sj :
  components d !! InputSignal.m_parent s = Some parent ->
  InputSignal.m_signal s = ToInput j ->
  inputs d !! j = Some sj ->
  already_connected_text d this s
  = Done (already_connected_error (InputSignal.m_name s) parent
            (InputSignal.m_name sj) parent).
Proof.
  intros Hparent Hsig Hj.
  unfold already_connected_text, deref. unfold InputSignal.getParent.
  rewrite Hparent. cbn [obind]. rewrite Hsig, Hj. reflexivity.
Qed.

(** A [connect()] on an input found connected: the text is printed; with
    assertions the call stops there, with [NDEBUG] it returns and the
    reference is assigned. *)
Lemma connect_refused (NDEBUG : bool) (d : Design) (this : nat)
  (s : InputSignal.t) (err : string) (other : SignalRef) :
  inputs d !! this = Some s ->
  InputSignal.m_signal s <> ToOutput None ->
  already_connected_text d this s = Done err ->
  connect NDEBUG d this other
  = if NDEBUG
    then (set_signal d this other, ((err ++ nl)%string, Done tt))
    else (d, ((err ++ nl)%string, Aborted err)).
Proof.
  intros Hs Hsig Htext. unfold connect, verifyIsNotConnected, deref.
  rewrite Hs, Htext.
  destruct (InputSignal.m_signal s) as [[o|]|j]; [| congruence |];
    cbn [not_nullptr]; destruct NDEBUG; reflexivity.
Qed.

(** C2, as amended: in a build with assertions (without [NDEBUG]), on an
    input that is already connected, to an output or to another input,
    [connect()] prints the error text and stops on [assert(false)], for
    both overloads and whatever the new source is, and the design, the
    stored reference of the input included, is as it was.  The text names
    the signal and its component, then the signal it is connected to. *)
Theorem connect_twice_fails (d : Design) (this : nat) (s : InputSignal.t) :
  wf_design d ->
  inputs d !! this = Some s ->
  (exists o, InputSignal.m_signal s = ToOutput (Some o)) \/
  (exists j, InputSignal.m_signal s = ToInput j) ->
  exists parent toThisSignal toThisComponent,
    components d !! InputSignal.getParent s = Some parent /\
    match InputSignal.m_signal s with
    | ToOutput None => False
    | ToOutput (Some o) =>
        exists os, outputs d !! o = Some os /\
                   toThisSignal = OutputSignal.getName os /\
                   components d !! OutputSignal.getParent os
                   = Some toThisComponent
    | ToInput j =>
        exists sj, inputs d !! j = Some sj /\
                   toThisSignal = InputSignal.getName sj /\
                   toThisComponent = parent
    end /\
    let err :=
      ("ERROR! trying to connect an input which has already been connected."
       ++ nl ++ "Signal: " ++ tab ++ tab ++ "'" ++ InputSignal.getName s
       ++ "'" ++ nl ++ "Of component: " ++ tab ++ "'" ++ parent
       ++ "'" ++ nl ++ "Is already connected to " ++ nl
       ++ "Signal: " ++ tab ++ tab ++ "'" ++ toThisSignal
       ++ "'" ++ nl ++ "Of component: " ++ tab ++ "'" ++ toThisComponent
       ++ "'" ++ nl)%string in
    (forall otherInput,
       connect_input false d this otherInput
       = (d, ((err ++ nl)%string, Aborted err))) /\
    (forall output,
       connect_output false d this output
       = (d, ((err ++ nl)%string, Aborted err))).
Proof.
  intros Hwf Hs Hconn.
  destruct (wf_inputs d Hwf this s Hs) as [[parent Hparent] Hlive].
  destruct Hconn as [[o Ho]|[j Hj]].
  - rewrite Ho in Hlive. cbn [ref_live] in Hlive.
    destruct Hlive as [os Hos].
    destruct (wf_outputs d Hwf o os Hos) as [c Hc].
    pose proof (text_for_output d this s parent o os c Hs Hparent Ho Hos Hc)
      as Htext.
    exists parent, (OutputSignal.getName os), c.
    split; [exact Hparent|]. rewrite Ho.
    split; [exists os; repeat split; assumption|].
    split; intros x.
    + exact (connect_refused false d this s _ (ToInput x) Hs
               ltac:(congruence) Htext).
    + exact (connect_refused false d this s _ (ToOutput (Some x)) Hs
               ltac:(congruence) Htext).
  - rewrite Hj in Hlive. cbn [ref_live] in Hlive.
    destruct Hlive as [sj Hsj].
    pose proof (text_for_input d this s parent j sj Hparent Hj Hsj) as Htext.
    exists parent, (InputSignal.getName sj), parent.
    split; [exact Hparent|]. rewrite Hj.
    split; [exists sj; repeat split; assumption|].
    split; intros x.
    + exact (connect_refused false d this s _ (ToInput x) Hs
               ltac:(congruence) Htext).
    + exact (connect_refused false d this s _ (ToOutput (Some x)) Hs
               ltac:(congruence) Htext).
Qed.

Lemma connect_twice_fails_witness :
  wf_design sample_design /\
  inputs sample_design !! 1%nat = Some (InputSignal.mk "b" 1 (ToInput 0)) /\
  exists err,
    connect_input false sample_design 1 2
    = (sample_design, ((err ++ nl)%string, Aborted err)).
Proof.
  assert (Hs : inputs sample_design !! 1%nat
               = Some (InputSignal.mk "b" 1 (ToInput 0))) by reflexivity.
  split; [exact wf_sample_design | split; [exact Hs |]].
  destruct (connect_twice_fails sample_design 1
              (InputSignal.mk "b" 1 (ToInput 0)) wf_sample_design Hs
              (or_intror (ex_intro _ 0%nat eq_refl)))
    as (parent & toThisSignal & toThisComponent & _ & _ & Hin & _).
  eexists. exact (Hin 2%nat).
Defined.

(** C2, as stated, fails in a build with [NDEBUG]: on the input [1] of the
    sample design, which is connected to the input [0], a second
    [connect()] prints the text, returns, and the stored reference is
    overwritten with the new source. *)
Lemma connect_twice_overwrites_with_NDEBUG :
  InputSignal.m_signal <$> inputs sample_design !! 1%nat = Some (ToInput 0) /\
  snd (snd (connect_input true sample_design 1 2)) = Done tt /\
  fst (snd (connect_input true sample_design 1 2))
  = (already_connected_error "b" "inner" "a" "inner" ++ nl)%string /\
  InputSignal.m_signal
    <$> inputs (fst (connect_input true sample_design 1 2)) !! 1%nat
  = Some (ToInput 2).
Proof. repeat split. Qed.

Lemma chain_head (d : Design) i n o :
  chain d i n o -> is_Some (inputs d !! i).
Proof. intros Hc. destruct Hc; eexists; eassumption. Qed.

(** C5, as amended: for an input that reaches an output through a chain of
    pass-through inputs, [isConnected()] returns true and [value<T>()]
    returns the current value of that output, both resolving through the
    whole chain; [getConnectedParent()] does not recurse: it returns the
    parent of the signal the input refers to directly, which is the output's
    parent when the chain is empty and the parent of the first pass-through
    input otherwise. *)
Theorem chain_resolution (d : Design) (i n o : nat) (os : OutputSignal.t)
  (T : ValueType) (fuel : nat) :
  chain d i n o ->
  outputs d !! o = Some os ->
  (n < fuel)%nat ->
  isConnected fuel d i = Done true /\
  value T fuel d i = Done (OutputSignal.value T os) /\
  match n with
  | O => getConnectedParent d i = Done (OutputSignal.getParent os)
  | S _ =>
      exists s j sj,
        inputs d !! i = Some s /\
        InputSignal.m_signal s = ToInput j /\
        inputs d !! j = Some sj /\
        getConnectedParent d i = Done (InputSignal.getParent sj)
  end.
Proof.
  intros Hc Hos. revert fuel.
  induction Hc as [i s o Hs Hsig | i s j n o Hs Hsig Hc IH]; intros fuel Hfuel.
  - destruct fuel as [|fuel]; [lia|].
    unfold getConnectedParent. cbn [isConnected value]. unfold deref.
    rewrite Hs. cbn [obind]. rewrite Hsig, Hos. cbn [obind not_nullptr].
    repeat split.
  - destruct fuel as [|fuel]; [lia|].
    destruct (IH Hos fuel ltac:(lia)) as (Hconn & Hval & _).
    destruct (chain_head d j n o Hc) as [sj Hsj].
    cbn [isConnected value]. unfold getConnectedParent, deref.
    rewrite Hs. cbn [obind]. rewrite Hsig.
    split; [exact Hconn | split; [exact Hval |]].
    exists s, j, sj. rewrite Hsj. repeat split; assumption.
Qed.

Lemma sample_chain : chain sample_design 1 1 0.
Proof.
  eapply chain_input; [reflexivity | reflexivity |].
  eapply chain_output; reflexivity.
Qed.

Lemma chain_resolution_witness :
  chain sample_design 1 1 0 /\
  outputs sample_design !! 0%nat
  = Some (OutputSignal.mk "out" 2 [true; false; true]) /\
  (1 < 2)%nat /\
  isConnected 2 sample_design 1 = Done true /\
  value AsUnsigned 2 sample_design 1
  = Done (OutputSignal.value AsUnsigned
            (OutputSignal.mk "out" 2 [true; false; true])) /\
  exists s j sj,
    inputs sample_design !! 1%nat = Some s /\
    InputSignal.m_signal s = ToInput j /\
    inputs sample_design !! j = Some sj /\
    getConnectedParent sample_design 1 = Done (InputSignal.getParent sj).
Proof.
  assert (Ho : outputs sample_design !! 0%nat
               = Some (OutputSignal.mk "out" 2 [true; false; true]))
    by reflexivity.
  assert (Hf : (1 < 2)%nat) by lia.
  split; [exact sample_chain | split; [exact Ho | split; [exact Hf |]]].
  exact (chain_resolution sample_design 1 1 0 _ AsUnsigned 2
           sample_chain Ho Hf).
Defined.

(** C5, as stated, fails: the input [1] of the sample design reaches the
    output [0], whose parent is the component [2], through the pass-through
    input [0]; [getConnectedParent()] returns the component [0], the parent
    of that pass-through input. *)
Lemma getConnectedParent_stops_at_first_input :
  chain sample_design 1 1 0 /\
  OutputSignal.getParent <$> outputs sample_design !! 0%nat = Some 2%nat /\
  getConnectedParent sample_design 1 = Done 0%nat.
Proof.
  split; [exact sample_chain | split; reflexivity].
Qed.

(** C10: [value<T>()] on an input that has just been constructed
    dereferences the null output pointer its variant starts with, and
    [isConnected()] is false there; whenever [isConnected()] returns true,
    in a design whose references resolve, [value<T>()] returns a value. *)
Theorem value_null_unless_connected :
  (forall d parent name T fuel,
     inputs (snd (new_InputSignal d parent name))
       !! fst (new_InputSignal d parent name)
     = Some (InputSignal.mk name parent (ToOutput None)) /\
     value T (S fuel) (snd (new_InputSignal d parent name))
           (fst (new_InputSignal d parent name)) = NullDeref /\
     isConnected (S fuel) (snd (new_InputSignal d parent name))
                 (fst (new_InputSignal d parent name)) = Done false) /\
  (forall d this T fuel,
     wf_design d ->
     isConnected fuel d this = Done true ->
     exists v, value T fuel d this = Done v).
Proof.
  split.
  - intros d parent name T fuel.
    unfold new_InputSignal. cbn [fst snd value isConnected inputs].
    unfold deref. rewrite lookup_insert_eq. repeat split.
  - intros d this T fuel Hwf. revert this.
    induction fuel as [|fuel IH]; intros this Hconn; [discriminate|].
    cbn [isConnected value] in *. unfold deref in *.
    destruct (inputs d !! this) as [s|] eqn:Hs; [|discriminate].
    cbn [obind] in *.
    destruct (wf_inputs d Hwf this s Hs) as [_ Hlive].
    destruct (InputSignal.m_signal s) as [[o|]|j].
    + destruct Hlive as [os Hos]. rewrite Hos. cbn [obind]. eauto.
    + discriminate.
    + apply IH. exact Hconn.
Qed.

Lemma value_null_unless_connected_witness :
  wf_design sample_design /\
  isConnected 2 sample_design 1 = Done true /\
  exists v, value AsInt 2 sample_design 1 = Done v.
Proof.
  assert (Hc : isConnected 2 sample_design 1 = Done true) by reflexivity.
  split; [exact wf_sample_design | split; [exact Hc |]].
  exact (proj2 value_null_unless_connected sample_design 1%nat AsInt 2%nat
           wf_sample_design Hc).
Defined.

(** * Further properties *)

(** ** The reverse stack of [WrMemory], for any address space *)

Lemma length_removelast {A} (l : list A) :
  length (removelast l) = (length l - 1)%nat.
Proof. rewrite removelast_take, length_take. lia. Qed.

(** X1: an edge that does not write, taken while the stack is below its
    capacity, is undone exactly: [save()] then [reverse()] gives back the
    very state of the component, memory, stack and capacity. *)
Theorem idle_edge_round_trip {M : Type} `{AddressSpace M}
  (byteIndexed : bool) (w : WrMemory M) (p : Ports.t) :
  Ports.wr_en p = false ->
  (length (m_reverseStack w) < reverseStackSize w)%nat ->
  reverse byteIndexed (save byteIndexed p w) = w.
Proof.
  intros Hen Hlt. unfold save. rewrite Hen.
  unfold reverse, saveToStack. cbn [m_reverseStack length].
  destruct (Nat.ltb_spec (reverseStackSize w) (S (length (m_reverseStack w))))
    as [Hc|Hc]; [lia|].
  cbn [writeEnable m_memory reverseStackSize]. destruct w; reflexivity.
Qed.

Lemma idle_edge_round_trip_witness :
  Ports.wr_en idle_edge = false /\
  (length (m_reverseStack probe_memory) < reverseStackSize probe_memory)%nat /\
  reverse true (save true idle_edge probe_memory) = probe_memory.
Proof.
  assert (H1 : Ports.wr_en idle_edge = false) by reflexivity.
  assert (H2 : (length (m_reverseStack probe_memory)
                < reverseStackSize probe_memory)%nat) by (simpl; lia).
  split; [exact H1 | split; [exact H2 |]].
  exact (idle_edge_round_trip true probe_memory idle_edge H1 H2).
Defined.

Lemma length_save_stack {M : Type} `{AddressSpace M}
  (byteIndexed : bool) (w : WrMemory M) (p : Ports.t) :
  length (m_reverseStack (save byteIndexed p w))
  = if (length (m_reverseStack w) <? reverseStackSize w)%nat
    then S (length (m_reverseStack w))
    else length (m_reverseStack w).
Proof.
  rewrite save_stack. unfold saveToStack. cbn [m_reverseStack].
  destruct (Nat.ltb_spec (reverseStackSize w)
              (length (eviction_of byteIndexed p w :: m_reverseStack w)))
    as [Hc|Hc];
    destruct (Nat.ltb_spec (length (m_reverseStack w)) (reverseStackSize w))
    as [Hd|Hd]; cbn [length] in *; try lia.
  change (eviction_of byteIndexed p w :: m_reverseStack w)
    with ([eviction_of byteIndexed p w] ++ m_reverseStack w) at 1.
  rewrite length_removelast. cbn [length app]. lia.
Qed.

(** X2: [save()] grows the stack by one record while it is below the
    capacity and leaves its length as it is otherwise, also when the stack
    is above the capacity: [save()] never cuts an over-full stack back. *)
Theorem save_stack_length {M : Type} `{AddressSpace M}
  (byteIndexed : bool) (w : WrMemory M) (p : Ports.t) :
  ((length (m_reverseStack w) < reverseStackSize w)%nat ->
   length (m_reverseStack (save byteIndexed p w))
   = S (length (m_reverseStack w))) /\
  ((reverseStackSize w <= length (m_reverseStack w))%nat ->
   length (m_reverseStack (save byteIndexed p w))
   = length (m_reverseStack w)).
Proof.
  pose proof (length_save_stack byteIndexed w p) as Hlen.
  destruct (Nat.ltb_spec (length (m_reverseStack w)) (reverseStackSize w));
    split; intros Hx; try lia; exact Hlen.
Qed.

Lemma save_stack_length_witness :
  (reverseStackSize crowded_memory
   <= length (m_reverseStack crowded_memory))%nat /\
  length (m_reverseStack (save true byte_edge crowded_memory))
  = length (m_reverseStack crowded_memory).
Proof.
  assert (Hle : (reverseStackSize crowded_memory
                 <= length (m_reverseStack crowded_memory))%nat)
    by (simpl; lia).
  split; [exact Hle |].
  exact (proj2 (save_stack_length true crowded_memory byte_edge) Hle).
Defined.

(** X6: started within the capacity, a run of edges leaves in the stack
    as many records as there were before plus one for each edge, but no more
    than the capacity. *)
Theorem saves_stack_length {M : Type} `{AddressSpace M}
  (byteIndexed : bool) (ps : list Ports.t) :
  forall w : WrMemory M,
    (length (m_reverseStack w) <= reverseStackSize w)%nat ->
    length (m_reverseStack (saves byteIndexed ps w))
    = Nat.min (reverseStackSize w) (length ps + length (m_reverseStack w)).
Proof.
  induction ps as [|p ps IH]; intros w Hle.
  - cbn [saves fold_left length]. lia.
  - change (saves byteIndexed (p :: ps) w)
      with (saves byteIndexed ps (save byteIndexed p w)).
    pose proof (length_save_stack byteIndexed w p) as Hlen.
    pose proof (save_capacity byteIndexed p w) as Hcap.
    destruct (Nat.ltb_spec (length (m_reverseStack w)) (reverseStackSize w));
      rewrite IH by lia; rewrite Hcap, Hlen; cbn [length]; lia.
Qed.

Lemma saves_stack_length_witness :
  (length (m_reverseStack probe_memory) <= reverseStackSize probe_memory)%nat /\
  length (m_reverseStack
            (saves true [byte_edge; idle_edge; wide_edge] probe_memory))
  = Nat.min (reverseStackSize probe_memory)
            (length [byte_edge; idle_edge; wide_edge]
             + length (m_reverseStack probe_memory)).
Proof.
  assert (Hle : (length (m_reverseStack probe_memory)
                 <= reverseStackSize probe_memory)%nat) by (simpl; lia).
  split; [exact Hle |].
  exact (saves_stack_length true [byte_edge; idle_edge; wide_edge]
           probe_memory Hle).
Defined.

(** X3: after [save()] and [reverse()] the stack is the one before the
    [save()] if that was below the capacity; otherwise it has lost its
    oldest record. *)
Theorem save_reverse_stack {M : Type} `{AddressSpace M}
  (byteIndexed : bool) (w : WrMemory M) (p : Ports.t) :
  m_reverseStack (reverse byteIndexed (save byteIndexed p w))
  = if (length (m_reverseStack w) <? reverseStackSize w)%nat
    then m_reverseStack w
    else removelast (m_reverseStack w).
Proof.
  assert (Hs := save_stack byteIndexed p w).
  unfold saveToStack in Hs. cbn [m_reverseStack length] in Hs.
  destruct (Nat.ltb_spec (reverseStackSize w) (S (length (m_reverseStack w))))
    as [Hc|Hc];
    destruct (Nat.ltb_spec (length (m_reverseStack w)) (reverseStackSize w))
    as [Hd|Hd]; try lia.
  - destruct (m_reverseStack w) as [|x l] eqn:E.
    + cbn in Hs. rewrite (reverse_nil byteIndexed _ Hs). exact Hs.
    + change (removelast (eviction_of byteIndexed p w :: x :: l))
        with (eviction_of byteIndexed p w :: removelast (x :: l)) in Hs.
      rewrite (reverse_cons byteIndexed _ _ _ Hs). reflexivity.
  - rewrite (reverse_cons byteIndexed _ _ _ Hs). reflexivity.
Qed.

Lemma reverses_beyond {M : Type} `{AddressSpace M}
  (byteIndexed : bool) (n : nat) : forall w : WrMemory M,
  (length (m_reverseStack w) <= n)%nat ->
  reverses byteIndexed n w
  = reverses byteIndexed (length (m_reverseStack w)) w.
Proof.
  induction n as [|n IH]; intros w Hle.
  - replace (length (m_reverseStack w)) with 0%nat by lia. reflexivity.
  - rewrite reverses_S.
    destruct (m_reverseStack w) as [|ev rest] eqn:E.
    + rewrite (reverse_nil byteIndexed w E).
      rewrite IH by (rewrite E; cbn [length]; lia).
      rewrite E. reflexivity.
    + cbn [length] in *. rewrite reverses_S.
      rewrite (reverse_cons byteIndexed ev rest w E).
      rewrite IH by (cbn [m_reverseStack]; lia). reflexivity.
Qed.

(** X4: [reverse()] called at least as often as the stack has records
    empties the stack, and the calls beyond that number change nothing. *)
Theorem reverses_drain {M : Type} `{AddressSpace M}
  (byteIndexed : bool) (n : nat) (w : WrMemory M) :
  (length (m_reverseStack w) <= n)%nat ->
  m_reverseStack (reverses byteIndexed n w) = [] /\
  reverses byteIndexed n w
  = reverses byteIndexed (length (m_reverseStack w)) w.
Proof.
  intros Hle. rewrite (reverses_beyond byteIndexed n w Hle).
  split; [|reflexivity].
  rewrite (reverses_app byteIndexed (m_reverseStack w) [] w)
    by (rewrite app_nil_r; reflexivity).
  reflexivity.
Qed.

Lemma reverses_drain_witness :
  (length (m_reverseStack crowded_memory) <= 5)%nat /\
  m_reverseStack (reverses true 5 crowded_memory) = [] /\
  reverses true 5 crowded_memory
  = reverses true (length (m_reverseStack crowded_memory)) crowded_memory.
Proof.
  assert (Hle : (length (m_reverseStack crowded_memory) <= 5)%nat)
    by (simpl; lia).
  split; [exact Hle |].
  exact (reverses_drain true 5 crowded_memory Hle).
Defined.

(** X5: stepping back over records of edges that did not write never
    touches the memory, however many times [reverse()] is called. *)
Theorem reverses_idle_history {M : Type} `{AddressSpace M}
  (byteIndexed : bool) (n : nat) (w : WrMemory M) :
  Forall (fun ev => writeEnable ev = false) (m_reverseStack w) ->
  m_memory (reverses byteIndexed n w) = m_memory w.
Proof.
  revert w. induction n as [|n IH]; intros w Hall; [reflexivity|].
  rewrite reverses_S.
  destruct (m_reverseStack w) as [|ev rest] eqn:E.
  - rewrite (reverse_nil byteIndexed w E). apply IH. rewrite E. exact Hall.
  - rewrite (reverse_cons byteIndexed ev rest w E).
    inversion Hall as [|? ? Hev Hrest]; subst.
    rewrite IH by exact Hrest. cbn [m_memory]. unfold undo.
    rewrite Hev. reflexivity.
Qed.

Lemma reverses_idle_history_witness :
  Forall (fun ev => writeEnable ev = false)
         (m_reverseStack (save true idle_edge probe_memory)) /\
  m_memory (reverses true 3 (save true idle_edge probe_memory))
  = m_memory (save true idle_edge probe_memory).
Proof.
  assert (Hall : Forall (fun ev => writeEnable ev = false)
                   (m_reverseStack (save true idle_edge probe_memory))).
  { constructor; [reflexivity | constructor]. }
  split; [exact Hall |].
  exact (reverses_idle_history true 3 (save true idle_edge probe_memory) Hall).
Defined.

(** ** Reading back what was written, on the sparse store *)

Lemma byte_step x y :
  x mod 256 = y mod 256 -> x / 256 = y / 256 -> x = y.
Proof.
  intros Hm Hd.
  rewrite (Z.div_mod x 256), (Z.div_mod y 256) by lia. rewrite Hm, Hd.
  reflexivity.
Qed.

(** Words with the same four bytes are equal. *)
Lemma word_eq_bytes x y :
  0 <= x < Word.modulus -> 0 <= y < Word.modulus ->
  (forall k, 0 <= k < 4 -> byte_of_word x k = byte_of_word y k) ->
  x = y.
Proof.
  unfold Word.modulus, Word.bits, byte_of_word.
  change (2 ^ 32) with 4294967296.
  intros Hx Hy Hb.
  pose proof (Hb 0 ltac:(lia)) as H0. pose proof (Hb 1 ltac:(lia)) as H1.
  pose proof (Hb 2 ltac:(lia)) as H2. pose proof (Hb 3 ltac:(lia)) as H3.
  clear Hb.
  repeat rewrite Z.shiftr_div_pow2 in H0 by lia.
  repeat rewrite Z.shiftr_div_pow2 in H1 by lia.
  repeat rewrite Z.shiftr_div_pow2 in H2 by lia.
  repeat rewrite Z.shiftr_div_pow2 in H3 by lia.
  change (2 ^ (8 * 0)) with 1 in H0. change (2 ^ (8 * 1)) with 256 in H1.
  change (2 ^ (8 * 2)) with (256 * 256) in H2.
  change (2 ^ (8 * 3)) with (256 * 256 * 256) in H3.
  rewrite !Z.div_1_r in H0.
  apply byte_step; [exact H0|].
  apply byte_step; [exact H1|].
  rewrite !Z.div_div by lia.
  apply byte_step; [exact H2|].
  rewrite !Z.div_div by lia.
  apply byte_step; [exact H3|].
  rewrite !Z.div_div by lia.
  rewrite !Z.div_small by lia. reflexivity.
Qed.

Lemma span_offset a k :
  0 <= a < Word.modulus -> 0 <= k < Word.modulus ->
  0 <= (if k =? 0 then a else Word.wrap (a + k)) < Word.modulus /\
  ((if k =? 0 then a else Word.wrap (a + k)) - a) mod Word.modulus = k.
Proof.
  intros Ha Hk. destruct (Z.eqb_spec k 0) as [->|Hne].
  - split; [exact Ha|]. rewrite Z.sub_diag. reflexivity.
  - split; [apply WordFacts.wrap_range|].
    unfold Word.wrap. rewrite Zminus_mod_idemp_l.
    replace (a + k - a) with k by lia. apply Z.mod_small. exact Hk.
Qed.

(** The word read where a write went: its bytes below the width of the
    write are those of the value, the others are as they were. *)
Lemma readMem_writeMem_byte (m : gmap Z U8.t) a v size k :
  size <= Word.modulus -> 0 <= k < 4 ->
  byte_of_word (Sparse.readMem (Sparse.writeMem m a v size) a) k
  = if k <? size then byte_of_word (Word.wrap v) k
    else byte_of_word (Sparse.readMem m a) k.
Proof.
  intros Hsz Hk. unfold byte_of_word, Sparse.readMem, Sparse.writeMem.
  pose proof (WordFacts.wrap_range a) as Ha.
  assert (Hk' : 0 <= k < Word.modulus)
    by (unfold Word.modulus, Word.bits; lia).
  destruct (span_offset (Word.wrap a) k Ha Hk') as [Hb Hoff].
  rewrite !SparseFacts.readBytes_byte
    by (change (Z.of_nat (Z.to_nat Word.size_bytes)) with 4; lia).
  rewrite SparseFacts.byte_at_writeBytes; [| | exact Ha | exact Hb].
  2:{ assert (0 <= Word.modulus) by (unfold Word.modulus, Word.bits; lia).
      lia. }
  rewrite Hoff.
  destruct (Z.ltb_spec k (Z.of_nat (Z.to_nat size)));
    destruct (Z.ltb_spec k size); try lia; reflexivity.
Qed.

Section SparseReadBack.

Variable byteIndexed : bool.

Lemma read_range (w : WrMemory (gmap Z U8.t)) a :
  0 <= read byteIndexed w a < Word.modulus.
Proof.
  unfold read, BaseMemory_read. cbn [readMem Sparse_AddressSpace].
  unfold Sparse.readMem.
  exact (SparseFacts.readBytes_range (Z.to_nat Word.size_bytes) _ _).
Qed.

(** X7: after a write edge, the word read at the written address has the
    bytes of [data_in] below [wr_width] and its earlier bytes from there
    on. *)
Theorem write_edge_read_back (w : WrMemory (gmap Z U8.t)) (p : Ports.t)
  (k : Z) :
  Ports.wr_en p = true ->
  0 <= k < 4 ->
  byte_of_word (read byteIndexed (save byteIndexed p w) (Ports.addr p)) k
  = if k <? Word.to_int (Ports.wr_width p)
    then byte_of_word (Word.wrap (Ports.data_in p)) k
    else byte_of_word (read byteIndexed w (Ports.addr p)) k.
Proof.
  intros Hen Hk. unfold read. rewrite save_memory, Hen.
  unfold BaseMemory_read, BaseMemory_write.
  apply readMem_writeMem_byte; [|exact Hk].
  pose proof (WordFacts.to_int_bound (Ports.wr_width p)).
  assert (2 ^ (Word.bits - 1) < Word.modulus) by reflexivity. lia.
Qed.

(** X8: [forceValue(address, value)] is read back at once: the word at the
    address is the value. *)
Theorem forceValue_read_back (w : WrMemory (gmap Z U8.t)) (address value : Z) :
  read byteIndexed (forceValue byteIndexed address value w) address
  = Word.wrap value.
Proof.
  apply word_eq_bytes;
    [apply read_range | apply WordFacts.wrap_range |].
  intros k Hk. unfold read, forceValue, write. cbn [m_memory].
  unfold BaseMemory_read, BaseMemory_write.
  cbn [readMem writeMem Sparse_AddressSpace].
  rewrite readMem_writeMem_byte; [| |exact Hk].
  - unfold Word.size_bytes.
    destruct (Z.ltb_spec k 4); [reflexivity | lia].
  - unfold Word.size_bytes, Word.modulus, Word.bits. lia.
Qed.

End SparseReadBack.

Lemma write_edge_read_back_witness :
  Ports.wr_en byte_edge = true /\
  0 <= 0 < 4 /\
  byte_of_word (read true (save true byte_edge probe_memory)
                  (Ports.addr byte_edge)) 0
  = if 0 <? Word.to_int (Ports.wr_width byte_edge)
    then byte_of_word (Word.wrap (Ports.data_in byte_edge)) 0
    else byte_of_word (read true probe_memory (Ports.addr byte_edge)) 0.
Proof.
  assert (H1 : Ports.wr_en byte_edge = true) by reflexivity.
  assert (H2 : 0 <= 0 < 4) by lia.
  split; [exact H1 | split; [exact H2 |]].
  exact (write_edge_read_back true probe_memory byte_edge 0 H1 H2).
Defined.

(** C6: [reverse()] on an empty reverse stack changes neither the memory
    nor the stack; on a non-empty stack it pops the front record and writes
    the captured data at the captured address with the captured width
    exactly when the record's [writeEnable] is set, leaving the memory
    untouched otherwise.  On the sparse store the write shows: the word
    then read at the captured address has the bytes of the captured data
    below the captured width and its earlier bytes from there on. *)
Theorem reverse_pops_front (byteIndexed : bool) :
  (forall (M : Type) (AS : AddressSpace M) (m : M) (K : nat),
     reverse byteIndexed (mkWrMemory m [] K) = mkWrMemory m [] K /\
     forall ev rest,
       reverse byteIndexed (mkWrMemory m (ev :: rest) K)
       = mkWrMemory
           (if writeEnable ev
            then BaseMemory_write byteIndexed m (addr ev) (data ev)
                   (Word.to_int (width ev))
            else m)
           rest K) /\
  (forall (m : gmap Z U8.t) (K : nat) ev rest k,
     writeEnable ev = true ->
     0 <= k < 4 ->
     byte_of_word
       (read byteIndexed (reverse byteIndexed (mkWrMemory m (ev :: rest) K))
             (addr ev)) k
     = if k <? Word.to_int (width ev)
       then byte_of_word (Word.wrap (data ev)) k
       else byte_of_word (BaseMemory_read byteIndexed m (addr ev)) k) /\
  (forall (m : gmap Z U8.t) (K : nat) ev rest a,
     writeEnable ev = false ->
     read byteIndexed (reverse byteIndexed (mkWrMemory m (ev :: rest) K)) a
     = BaseMemory_read byteIndexed m a).
Proof.
  split; [|split].
  - intros M AS m K. split; [reflexivity|]. intros ev rest.
    unfold reverse. cbn [m_reverseStack].
    destruct (writeEnable ev); reflexivity.
  - intros m K ev rest k Hen Hk.
    unfold reverse, read, write. cbn [m_reverseStack]. rewrite Hen.
    cbn [m_memory]. unfold BaseMemory_read, BaseMemory_write.
    cbn [readMem writeMem Sparse_AddressSpace].
    apply readMem_writeMem_byte; [|exact Hk].
    pose proof (WordFacts.to_int_bound (width ev)).
    assert (2 ^ (Word.bits - 1) < Word.modulus) by reflexivity. lia.
  - intros m K ev rest a Hen.
    unfold reverse, read. cbn [m_reverseStack]. rewrite Hen. reflexivity.
Qed.

Lemma reverse_pops_front_witness :
  let ev := mkMemoryEviction true 4 17 1 in
  writeEnable ev = true /\
  0 <= 0 < 4 /\
  byte_of_word
    (read true (reverse true (mkWrMemory probe_space [ev] 1)) (addr ev)) 0
  = if 0 <? Word.to_int (width ev)
    then byte_of_word (Word.wrap (data ev)) 0
    else byte_of_word (BaseMemory_read true probe_space (addr ev)) 0.
Proof.
  intros ev.
  assert (H1 : writeEnable ev = true) by reflexivity.
  assert (H2 : 0 <= 0 < 4) by lia.
  split; [exact H1 | split; [exact H2 |]].
  exact (proj1 (proj2 (reverse_pops_front true)) probe_space 1%nat ev [] 0
           H1 H2).
Defined.

(** C8: [forceValue(address, value)] writes a word to the memory and leaves
    the reverse stack and its capacity as they were; a following
    [reverse()] pops the same record and performs the same inverse action
    as it would have without the forced write.  On the sparse store the
    write shows: the word then read at the address is the value. *)
Theorem forceValue_keeps_stack (byteIndexed : bool) (address value : Z) :
  (forall (M : Type) (AS : AddressSpace M) (w : WrMemory M),
     m_memory (forceValue byteIndexed address value w)
     = BaseMemory_write byteIndexed (m_memory w) address value
         Word.size_bytes /\
     m_reverseStack (forceValue byteIndexed address value w)
     = m_reverseStack w /\
     reverseStackSize (forceValue byteIndexed address value w)
     = reverseStackSize w /\
     m_reverseStack
       (reverse byteIndexed (forceValue byteIndexed address value w))
     = m_reverseStack (reverse byteIndexed w) /\
     m_memory (reverse byteIndexed (forceValue byteIndexed address value w))
     = match m_reverseStack w with
       | [] => m_memory (forceValue byteIndexed address value w)
       | ev :: _ =>
           undo byteIndexed ev
             (m_memory (forceValue byteIndexed address value w))
       end) /\
  (forall w : WrMemory (gmap Z U8.t),
     read byteIndexed (forceValue byteIndexed address value w) address
     = Word.wrap value).
Proof.
  split.
  - intros M AS w.
    destruct w as [m [|ev rest] K]; repeat split;
      unfold reverse, forceValue, write, undo;
      cbn [m_reverseStack m_memory];
      destruct (writeEnable ev); reflexivity.
  - intros w. apply word_eq_bytes;
      [apply read_range | apply WordFacts.wrap_range |].
    intros k Hk. unfold read, forceValue, write. cbn [m_memory].
    unfold BaseMemory_read, BaseMemory_write.
    cbn [readMem writeMem Sparse_AddressSpace].
    rewrite readMem_writeMem_byte; [| |exact Hk].
    + unfold Word.size_bytes.
      destruct (Z.ltb_spec k 4); [reflexivity | lia].
    + unfold Word.size_bytes, Word.modulus, Word.bits. lia.
Qed.

(** Writing back the word read from [m] restores [m] from any store that
    differs from it only within the span written back. *)
Lemma write_back_over (m m2 : gmap Z U8.t) a size :
  size <= Word.size_bytes ->
  (forall b,
     Sparse.byte_at m2 b = Sparse.byte_at m b \/
     (0 <= b < Word.modulus /\
      (b - Word.wrap a) mod Word.modulus < Z.of_nat (Z.to_nat size))) ->
  Sparse.same_bytes
    (Sparse.writeMem m2 a (Sparse.readMem m a) size) m.
Proof.
  intros Hsz Hm2 b. unfold Sparse.writeMem, Sparse.readMem.
  pose proof (WordFacts.wrap_range a) as Ha.
  assert (Hn : Z.of_nat (Z.to_nat size) <= 4)
    by (unfold Word.size_bytes in Hsz; lia).
  assert (Hn' : Z.of_nat (Z.to_nat size) <= Word.modulus)
    by (unfold Word.modulus, Word.bits; lia).
  destruct (decide (0 <= b < Word.modulus)) as [Hb|Hb].
  2:{ rewrite SparseFacts.byte_at_writeBytes_outside by assumption.
      destruct (Hm2 b) as [E|[Hin _]]; [exact E | contradiction]. }
  rewrite SparseFacts.byte_at_writeBytes by assumption.
  destruct (Z.ltb_spec ((b - Word.wrap a) mod Word.modulus)
              (Z.of_nat (Z.to_nat size))) as [Hlt|Hge].
  2:{ destruct (Hm2 b) as [E|[_ Hin]]; [exact E | lia]. }
  pose proof (SparseFacts.readBytes_range (Z.to_nat Word.size_bytes) m
                (Word.wrap a)) as Hr.
  change (256 ^ Z.of_nat (Z.to_nat Word.size_bytes)) with Word.modulus in Hr.
  rewrite WordFacts.wrap_small by exact Hr.
  pose proof (Z.mod_pos_bound (b - Word.wrap a) Word.modulus eq_refl) as Hoff.
  rewrite SparseFacts.readBytes_byte
    by (change (Z.of_nat (Z.to_nat Word.size_bytes)) with 4; lia).
  f_equal.
  unfold Word.modulus, Word.bits in *.
  change (2 ^ 32) with 4294967296 in *.
  destruct (Z.eqb_spec ((b - Word.wrap a) mod 4294967296) 0) as [E|E].
  - Z.div_mod_to_equations. lia.
  - unfold Word.wrap at 1. unfold Word.modulus, Word.bits.
    change (2 ^ 32) with 4294967296.
    rewrite Zplus_mod_idemp_r.
    replace (Word.wrap a + (b - Word.wrap a)) with b by lia.
    apply Z.mod_small. exact Hb.
Qed.

(** X9: a forced write to the address of the last full-word write edge is
    wiped by [reverse()]: the memory reads as before the edge, and of the
    forced value nothing is left. *)
Theorem reverse_wipes_forced_write (byteIndexed : bool)
  (w : WrMemory (gmap Z U8.t)) (p : Ports.t) (value : Z) :
  Ports.wr_en p = true ->
  Word.to_int (Ports.wr_width p) = Word.size_bytes ->
  m_reverseStack (save byteIndexed p w) <> [] ->
  forall a,
    read byteIndexed
      (reverse byteIndexed
         (forceValue byteIndexed (Ports.addr p) value (save byteIndexed p w)))
      a
    = read byteIndexed w a.
Proof.
  intros Hen Hw Hne a.
  rewrite save_stack in Hne.
  destruct (saveToStack_front _ _ Hne) as [rest Hrest].
  rewrite <- save_stack in Hrest.
  rewrite (reverse_cons byteIndexed (eviction_of byteIndexed p w) rest)
    by exact Hrest.
  unfold read, BaseMemory_read. cbn [m_memory forceValue write].
  apply SparseFacts.readMem_same_bytes.
  rewrite save_memory, Hen.
  unfold undo, eviction_of. cbn [writeEnable addr data width].
  rewrite Hen, Hw. unfold read, BaseMemory_read, BaseMemory_write.
  cbn [readMem writeMem Sparse_AddressSpace].
  apply write_back_over; [lia|].
  intros b. unfold Sparse.writeMem.
  set (a' := Word.wrap (BaseMemory_index byteIndexed (Ports.addr p))).
  pose proof (WordFacts.wrap_range
                (BaseMemory_index byteIndexed (Ports.addr p))) as Ha.
  fold a' in Ha.
  assert (Hn : Z.of_nat (Z.to_nat Word.size_bytes) <= Word.modulus)
    by (unfold Word.size_bytes, Word.modulus, Word.bits; lia).
  destruct (decide (0 <= b < Word.modulus)) as [Hb|Hb].
  - rewrite !SparseFacts.byte_at_writeBytes by assumption.
    destruct (Z.ltb_spec ((b - a') mod Word.modulus)
                (Z.of_nat (Z.to_nat Word.size_bytes))) as [Hlt|Hge].
    + right. split; [exact Hb | exact Hlt].
    + left. reflexivity.
  - left. rewrite !SparseFacts.byte_at_writeBytes_outside by assumption.
    reflexivity.
Qed.

Lemma reverse_wipes_forced_write_witness :
  let p := Ports.mk true 0 17 4 in
  Ports.wr_en p = true /\
  Word.to_int (Ports.wr_width p) = Word.size_bytes /\
  m_reverseStack (save true p probe_memory) <> [] /\
  forall a,
    read true (reverse true (forceValue true (Ports.addr p) 99
                               (save true p probe_memory))) a
    = read true probe_memory a.
Proof.
  intros p.
  assert (H1 : Ports.wr_en p = true) by reflexivity.
  assert (H2 : Word.to_int (Ports.wr_width p) = Word.size_bytes)
    by reflexivity.
  assert (H3 : m_reverseStack (save true p probe_memory) <> [])
    by (vm_compute; discriminate).
  split; [exact H1 | split; [exact H2 | split; [exact H3 |]]].
  exact (reverse_wipes_forced_write true probe_memory p 99 H1 H2 H3).
Defined.

(** ** Memories and the address space they point to *)

(** X10: before [setMemory], [m_memory] is null: [read], [save()] and
    [forceValue()] dereference it, and so does [reverse()] when the front
    record is a write; [reverse()] on an empty stack or over a record that
    did not write touches no memory and goes through. *)
Theorem unattached_memory {M : Type} `{AddressSpace M}
  (byteIndexed : bool) (spaces : gmap nat M) (c : Ref.WrMemory) :
  Ref.m_memory c = None ->
  (forall address,
     Ref.read byteIndexed spaces (Ref.m_memory c) address = NullDeref) /\
  (forall p, Ref.save byteIndexed p spaces c = NullDeref) /\
  (forall address value,
     Ref.forceValue byteIndexed address value spaces c = NullDeref) /\
  Ref.reverse byteIndexed spaces c
  = match Ref.m_reverseStack c with
    | [] => Done (spaces, c)
    | ev :: rest =>
        if writeEnable ev then NullDeref
        else Done (spaces,
                   Ref.mkWrMemory None rest (Ref.reverseStackSize c))
    end.
Proof.
  intros Hnull.
  unfold Ref.save, Ref.forceValue, Ref.reverse, Ref.write.
  rewrite Hnull. cbn [Ref.read obind].
  repeat split.
  destruct (Ref.m_reverseStack c) as [|ev rest]; [reflexivity|].
  destruct (writeEnable ev); reflexivity.
Qed.

Lemma unattached_memory_witness :
  Ref.m_memory (Ref.new_WrMemory 8) = None /\
  (forall p,
     Ref.save true p ({[ 0%nat := probe_space ]} : gmap nat (gmap Z U8.t))
              (Ref.new_WrMemory 8) = NullDeref).
Proof.
  assert (Hn : Ref.m_memory (Ref.new_WrMemory 8) = None) by reflexivity.
  split; [exact Hn |].
  exact (proj1 (proj2 (unattached_memory true {[ 0%nat := probe_space ]}
                         (Ref.new_WrMemory 8) Hn))).
Defined.

Lemma Ref_save_attached {M : Type} `{AddressSpace M}
  (byteIndexed : bool) (spaces : gmap nat M) (c : Ref.WrMemory)
  (mem : nat) (m : M) (p : Ports.t) :
  Ref.m_memory c = Some mem ->
  spaces !! mem = Some m ->
  Ref.save byteIndexed p spaces c
  = Done (<[mem := m_memory (save byteIndexed p (attach m c))]> spaces,
          detach (Some mem) (save byteIndexed p (attach m c))).
Proof.
  intros Hptr Hm. destruct c as [ptr stack K]. cbn in Hptr. subst ptr.
  unfold Ref.save, Ref.read, Ref.write, deref, save, attach.
  cbn [Ref.m_memory]. rewrite Hm. cbn [obind].
  destruct (Ports.wr_en p); cbn [obind].
  - reflexivity.
  - rewrite (insert_id spaces mem m Hm). reflexivity.
Qed.

(** X11: on a memory attached to a live address space, [save()],
    [reverse()] and [forceValue()] do to the address space pointed to and
    to the stack what they do in the model of an attached memory; every
    other address space is left as it is. *)
Theorem attached_memory {M : Type} `{AddressSpace M}
  (byteIndexed : bool) (spaces : gmap nat M) (c : Ref.WrMemory)
  (mem : nat) (m : M) :
  Ref.m_memory c = Some mem ->
  spaces !! mem = Some m ->
  (forall p,
     Ref.save byteIndexed p spaces c
     = Done (<[mem := m_memory (save byteIndexed p (attach m c))]> spaces,
             detach (Some mem) (save byteIndexed p (attach m c)))) /\
  Ref.reverse byteIndexed spaces c
  = Done (<[mem := m_memory (reverse byteIndexed (attach m c))]> spaces,
          detach (Some mem) (reverse byteIndexed (attach m c))) /\
  (forall address value,
     Ref.forceValue byteIndexed address value spaces c
     = Done (<[mem := m_memory (forceValue byteIndexed address value
                                  (attach m c))]> spaces,
             detach (Some mem)
               (forceValue byteIndexed address value (attach m c)))).
Proof.
  intros Hptr Hm. destruct c as [ptr stack K]. cbn in Hptr. subst ptr.
  split; [|split].
  - intros p. apply Ref_save_attached; [reflexivity | exact Hm].
  - unfold Ref.reverse, Ref.write, deref, reverse, attach.
    cbn [Ref.m_memory Ref.m_reverseStack Ref.reverseStackSize m_reverseStack].
    destruct stack as [|ev rest].
    + cbn [m_memory]. rewrite (insert_id spaces mem m Hm). reflexivity.
    + destruct (writeEnable ev); cbn [obind].
      * rewrite Hm. reflexivity.
      * cbn [m_memory]. rewrite (insert_id spaces mem m Hm). reflexivity.
  - intros address value.
    unfold Ref.forceValue, Ref.write, deref, forceValue, attach.
    cbn [Ref.m_memory]. rewrite Hm. reflexivity.
Qed.

Lemma attached_memory_witness :
  let spaces : gmap nat (gmap Z U8.t) := {[ 3%nat := probe_space ]} in
  let c := Ref.setMemory (Some 3%nat) (Ref.new_WrMemory 8) in
  Ref.m_memory c = Some 3%nat /\
  spaces !! 3%nat = Some probe_space /\
  Ref.reverse true spaces c
  = Done (<[3%nat := m_memory (reverse true (attach probe_space c))]> spaces,
          detach (Some 3%nat) (reverse true (attach probe_space c))).
Proof.
  intros spaces c.
  assert (H1 : Ref.m_memory c = Some 3%nat) by reflexivity.
  assert (H2 : spaces !! 3%nat = Some probe_space) by reflexivity.
  split; [exact H1 | split; [exact H2 |]].
  exact (proj1 (proj2 (attached_memory true spaces c 3 probe_space H1 H2))).
Defined.

(** X12: [MemoryAsyncRd::setMemory] points both sub-components to the one
    address space, which [memory()] then reports; after an edge of the
    write sub-component, the functor of the read sub-component returns the
    word that the memory holds after the edge. *)
Theorem async_read_sees_edge {M : Type} `{AddressSpace M}
  (byteIndexed : bool) (spaces : gmap nat M) (a : Ref.MemoryAsyncRd)
  (mem : nat) (m : M) (p : Ports.t) (address : Z) :
  spaces !! mem = Some m ->
  Ref.MemoryAsyncRd_memory (Ref.MemoryAsyncRd_setMemory (Some mem) a)
  = Some mem /\
  Ref._rd_mem (Ref.MemoryAsyncRd_setMemory (Some mem) a) = Some mem /\
  exists spaces' c',
    Ref.save byteIndexed p spaces
      (Ref._wr_mem (Ref.MemoryAsyncRd_setMemory (Some mem) a))
    = Done (spaces', c') /\
    Ref.RdMemory_data_out byteIndexed spaces'
      (Ref._rd_mem (Ref.MemoryAsyncRd_setMemory (Some mem) a)) address
    = Done (read byteIndexed
              (save byteIndexed p (attach m (Ref._wr_mem a))) address).
Proof.
  intros Hm. split; [reflexivity | split; [reflexivity|]].
  destruct a as [rd [ptr stack K]].
  cbn [Ref.MemoryAsyncRd_setMemory Ref._wr_mem Ref._rd_mem Ref.setMemory
       Ref.m_reverseStack Ref.reverseStackSize].
  eexists _, _. split.
  - apply (Ref_save_attached byteIndexed spaces
             (Ref.mkWrMemory (Some mem) stack K) mem m p eq_refl Hm).
  - unfold Ref.RdMemory_data_out, Ref.read, deref.
    rewrite lookup_insert_eq. reflexivity.
Qed.

Lemma async_read_sees_edge_witness :
  let spaces : gmap nat (gmap Z U8.t) := {[ 3%nat := probe_space ]} in
  let a := Ref.mkMemoryAsyncRd None (Ref.new_WrMemory 8) in
  spaces !! 3%nat = Some probe_space /\
  exists spaces' c',
    Ref.save true byte_edge spaces
      (Ref._wr_mem (Ref.MemoryAsyncRd_setMemory (Some 3%nat) a))
    = Done (spaces', c') /\
    Ref.RdMemory_data_out true spaces'
      (Ref._rd_mem (Ref.MemoryAsyncRd_setMemory (Some 3%nat) a)) 0
    = Done (read true (save true byte_edge
                         (attach probe_space (Ref._wr_mem a))) 0).
Proof.
  intros spaces a.
  assert (Hm : spaces !! 3%nat = Some probe_space) by reflexivity.
  split; [exact Hm |].
  exact (proj2 (proj2 (async_read_sees_edge true spaces a 3 probe_space
                          byte_edge 0 Hm))).
Defined.

(** ** Input signals: resolution and connection *)

(** X13: when [isConnected()] returns false, [value<T>()] dereferences a
    null pointer: the pass-through inputs end at an input that was never
    connected. *)
Theorem not_connected_value_null (d : Design) (T : ValueType) (fuel : nat) :
  forall this,
    isConnected fuel d this = Done false ->
    value T fuel d this = NullDeref.
Proof.
  induction fuel as [|fuel IH]; intros this Hc; [discriminate|].
  cbn [isConnected value] in *. unfold deref in *.
  destruct (inputs d !! this) as [s|]; [|discriminate].
  cbn [obind] in *.
  destruct (InputSignal.m_signal s) as [[o|]|j].
  - discriminate.
  - reflexivity.
  - apply IH. exact Hc.
Qed.

Lemma not_connected_value_null_witness :
  isConnected 1 sample_design 2 = Done false /\
  value AsBool 1 sample_design 2 = NullDeref.
Proof.
  assert (Hc : isConnected 1 sample_design 2 = Done false) by reflexivity.
  split; [exact Hc |].
  exact (not_connected_value_null sample_design AsBool 1 2%nat Hc).
Defined.

(** X14: [isConnected()] returns true only for an input that reaches a
    non-null output pointer through pass-through inputs. *)
Theorem connected_has_chain (d : Design) (fuel : nat) :
  forall this,
    isConnected fuel d this = Done true ->
    exists n o, (n < fuel)%nat /\ chain d this n o.
Proof.
  induction fuel as [|fuel IH]; intros this Hc; [discriminate|].
  cbn [isConnected] in Hc. unfold deref in Hc.
  destruct (inputs d !! this) as [s|] eqn:Hs; [|discriminate].
  cbn [obind] in Hc.
  destruct (InputSignal.m_signal s) as [[o|]|j] eqn:Hsig.
  - exists 0%nat, o. split; [lia|]. eapply chain_output; eassumption.
  - discriminate.
  - destruct (IH j Hc) as (n & o & Hn & Hch).
    exists (S n), o. split; [lia|]. eapply chain_input; eassumption.
Qed.

Lemma connected_has_chain_witness :
  isConnected 2 sample_design 1 = Done true /\
  exists n o, (n < 2)%nat /\ chain sample_design 1 n o.
Proof.
  assert (Hc : isConnected 2 sample_design 1 = Done true) by reflexivity.
  split; [exact Hc |].
  exact (connected_has_chain sample_design 2 1%nat Hc).
Defined.

Lemma chain_reads_output (d : Design) (T : ValueType) i n o os :
  chain d i n o ->
  outputs d !! o = Some os ->
  forall fuel, (n < fuel)%nat ->
    isConnected fuel d i = Done true /\
    value T fuel d i = Done (OutputSignal.value T os).
Proof.
  intros Hc Hos.
  induction Hc as [i s o Hs Hsig | i s j n o Hs Hsig Hc IH];
    intros fuel Hfuel; (destruct fuel as [|fuel]; [lia|]);
    cbn [isConnected value]; unfold deref; rewrite Hs; cbn [obind];
    rewrite Hsig.
  - rewrite Hos. split; reflexivity.
  - apply IH; [exact Hos | lia].
Qed.

Lemma ref_live_set_signal (d : Design) this other r :
  ref_live d r -> ref_live (set_signal d this other) r.
Proof.
  destruct r as [[o|]|j]; cbn [ref_live set_signal inputs outputs];
    [exact id | exact id |].
  intros [sj Hsj]. rewrite lookup_alter.
  destruct (decide (this = j)) as [->|_]; [rewrite Hsj|]; eauto.
Qed.

(** An input still unconnected lies on no chain, so giving it a source
    keeps every chain. *)
Lemma chain_set_signal (d : Design) i s r j n o :
  inputs d !! i = Some s ->
  InputSignal.m_signal s = ToOutput None ->
  chain d j n o ->
  chain (set_signal d i r) j n o.
Proof.
  intros Hs Hsig Hc.
  induction Hc as [k sk o Hk Hksig | k sk j n o Hk Hksig Hc IH].
  - eapply chain_output; [|exact Hksig].
    cbn [set_signal inputs]. rewrite lookup_alter_ne; [exact Hk|].
    intros ->. congruence.
  - eapply chain_input; [|exact Hksig|exact IH].
    cbn [set_signal inputs]. rewrite lookup_alter_ne; [exact Hk|].
    intros ->. congruence.
Qed.

Lemma wf_set_signal (d : Design) (this : nat) (other : SignalRef) :
  wf_design d -> ref_live d other -> wf_design (set_signal d this other).
Proof.
  intros Hwf Hother. split.
  - intros i s Hi. cbn [set_signal inputs] in Hi.
    rewrite lookup_alter in Hi.
    destruct (decide (this = i)) as [->|Hne].
    + destruct (inputs d !! i) as [s0|] eqn:Hs0; [|discriminate].
      cbn in Hi. injection Hi as <-.
      cbn [InputSignal.m_parent InputSignal.m_signal].
      split; [exact (proj1 (wf_inputs d Hwf i s0 Hs0))|].
      apply ref_live_set_signal, Hother.
    + destruct (wf_inputs d Hwf i s Hi) as [Hp Hr].
      split; [exact Hp | apply ref_live_set_signal, Hr].
  - intros o os Ho. exact (wf_outputs d Hwf o os Ho).
Qed.

(** X15: [connect()] keeps a design well formed when the new source is a
    live signal, in either build and whether it goes through or stops; so
    does the constructor of an input in a live component. *)
Theorem wf_design_preserved (d : Design) :
  wf_design d ->
  (forall NDEBUG this other,
     ref_live d other -> wf_design (fst (connect NDEBUG d this other))) /\
  (forall parent name,
     is_Some (components d !! parent) ->
     wf_design (snd (new_InputSignal d parent name))).
Proof.
  intros Hwf. split.
  - intros NDEBUG this other Hother. unfold connect.
    destruct (verifyIsNotConnected NDEBUG d this) as [cout [[]| | | |]];
      cbn [fst]; try exact Hwf.
    apply wf_set_signal; assumption.
  - intros parent name Hparent. unfold new_InputSignal. cbn [snd].
    set (i := fresh (dom (inputs d))).
    assert (Hfresh : inputs d !! i = None).
    { apply not_elem_of_dom. apply is_fresh. }
    assert (Hmono : forall r, ref_live d r ->
              ref_live
                {| components := components d; outputs := outputs d;
                   inputs := <[i := InputSignal.mk name parent (ToOutput None)]>
                               (inputs d) |} r).
    { intros [[o|]|j]; cbn [ref_live inputs outputs]; [exact id | exact id |].
      intros [sj Hsj]. rewrite lookup_insert_ne; [eauto|].
      intros ->. congruence. }
    split.
    + intros k s Hk. cbn [inputs components] in *.
      rewrite lookup_insert in Hk.
      destruct (decide (i = k)) as [->|Hne].
      * injection Hk as <-. split; [exact Hparent | exact I].
      * destruct (wf_inputs d Hwf k s Hk) as [Hp Hr].
        split; [exact Hp | apply Hmono, Hr].
    + intros o os Ho. exact (wf_outputs d Hwf o os Ho).
Qed.

Lemma wf_design_preserved_witness :
  wf_design sample_design /\
  wf_design (fst (connect false sample_design 2 (ToInput 1))) /\
  wf_design (fst (connect true sample_design 1 (ToInput 2))) /\
  wf_design (snd (new_InputSignal sample_design 0 "d")).
Proof.
  split; [exact wf_sample_design |].
  split; [|split].
  - exact (proj1 (wf_design_preserved sample_design wf_sample_design)
             false 2%nat (ToInput 1)
             (ex_intro _ (InputSignal.mk "b" 1 (ToInput 0)) eq_refl)).
  - exact (proj1 (wf_design_preserved sample_design wf_sample_design)
             true 1%nat (ToInput 2)
             (ex_intro _ (InputSignal.mk "c" 1 (ToOutput None)) eq_refl)).
  - exact (proj2 (wf_design_preserved sample_design wf_sample_design)
             0%nat "d"%string (ex_intro _ "outer"%string eq_refl)).
Defined.

(** X16: [fromThisOutput >> toThisInput] on an input not yet connected
    goes through and prints nothing, in either build; from then on the
    input is connected, reads the value of the output and reports the
    parent of the output. *)
Theorem output_to_input_connects (NDEBUG : bool) (d : Design)
  (fromThisOutput toThisInput : nat)
  (s : InputSignal.t) (o : OutputSignal.t) (T : ValueType) (fuel : nat) :
  inputs d !! toThisInput = Some s ->
  InputSignal.m_signal s = ToOutput None ->
  outputs d !! fromThisOutput = Some o ->
  snd (connect_output_to_input NDEBUG d fromThisOutput toThisInput)
  = (EmptyString, Done tt) /\
  isConnected (S fuel)
    (fst (connect_output_to_input NDEBUG d fromThisOutput toThisInput))
    toThisInput
  = Done true /\
  value T (S fuel)
    (fst (connect_output_to_input NDEBUG d fromThisOutput toThisInput))
    toThisInput
  = Done (OutputSignal.value T o) /\
  getConnectedParent
    (fst (connect_output_to_input NDEBUG d fromThisOutput toThisInput))
    toThisInput
  = Done (OutputSignal.getParent o).
Proof.
  intros Hs Hsig Ho.
  unfold connect_output_to_input, connect_output.
  destruct (connect_first_succeeds NDEBUG d toThisInput s
              (ToOutput (Some fromThisOutput)) Hs Hsig) as [Hc _].
  rewrite Hc. cbn [fst snd].
  unfold getConnectedParent. cbn [isConnected value]. unfold deref.
  cbn [set_signal inputs outputs]. rewrite lookup_alter_eq, Hs.
  cbn [fmap option_fmap option_map obind InputSignal.m_signal not_nullptr].
  rewrite Ho. repeat split.
Qed.

Lemma output_to_input_connects_witness :
  inputs sample_design !! 2%nat = Some (InputSignal.mk "c" 1 (ToOutput None)) /\
  outputs sample_design !! 0%nat
  = Some (OutputSignal.mk "out" 2 [true; false; true]) /\
  snd (connect_output_to_input false sample_design 0 2)
  = (EmptyString, Done tt) /\
  isConnected 1 (fst (connect_output_to_input false sample_design 0 2)) 2
  = Done true /\
  value AsUnsigned 1 (fst (connect_output_to_input false sample_design 0 2)) 2
  = Done (OutputSignal.value AsUnsigned
            (OutputSignal.mk "out" 2 [true; false; true])) /\
  getConnectedParent (fst (connect_output_to_input false sample_design 0 2)) 2
  = Done (OutputSignal.getParent
            (OutputSignal.mk "out" 2 [true; false; true])).
Proof.
  assert (Hs : inputs sample_design !! 2%nat
               = Some (InputSignal.mk "c" 1 (ToOutput None))) by reflexivity.
  assert (Ho : outputs sample_design !! 0%nat
               = Some (OutputSignal.mk "out" 2 [true; false; true]))
    by reflexivity.
  split; [exact Hs | split; [exact Ho |]].
  exact (output_to_input_connects false sample_design 0 2 _ _ AsUnsigned 0
           Hs eq_refl Ho).
Defined.

(** X17: [fromThisInput >> toThisInput] on an input not yet connected
    goes through in either build and makes it a pass-through: if the source
    input reaches an output through [n] inputs, the connected input reaches
    it through [n + 1], is connected and reads the value of that output. *)
Theorem input_to_input_passes_through (NDEBUG : bool) (d : Design)
  (fromThisInput toThisInput : nat) (s : InputSignal.t) (n o : nat)
  (os : OutputSignal.t) (T : ValueType) (fuel : nat) :
  inputs d !! toThisInput = Some s ->
  InputSignal.m_signal s = ToOutput None ->
  chain d fromThisInput n o ->
  outputs d !! o = Some os ->
  (S n < fuel)%nat ->
  snd (connect_input_to_input NDEBUG d fromThisInput toThisInput)
  = (EmptyString, Done tt) /\
  chain (fst (connect_input_to_input NDEBUG d fromThisInput toThisInput))
        toThisInput (S n) o /\
  isConnected fuel
    (fst (connect_input_to_input NDEBUG d fromThisInput toThisInput))
    toThisInput
  = Done true /\
  value T fuel
    (fst (connect_input_to_input NDEBUG d fromThisInput toThisInput))
    toThisInput
  = Done (OutputSignal.value T os).
Proof.
  intros Hs Hsig Hc Hos Hfuel.
  unfold connect_input_to_input, connect_input.
  destruct (connect_first_succeeds NDEBUG d toThisInput s
              (ToInput fromThisInput) Hs Hsig) as [Hconn _].
  rewrite Hconn. cbn [fst snd].
  assert (Hch : chain (set_signal d toThisInput (ToInput fromThisInput))
                      toThisInput (S n) o).
  { eapply chain_input.
    - cbn [set_signal inputs]. rewrite lookup_alter_eq, Hs. reflexivity.
    - reflexivity.
    - eapply chain_set_signal; eassumption. }
  split; [reflexivity | split; [exact Hch |]].
  apply (chain_reads_output _ T _ _ _ os Hch); [exact Hos | exact Hfuel].
Qed.

Lemma input_to_input_passes_through_witness :
  inputs sample_design !! 2%nat = Some (InputSignal.mk "c" 1 (ToOutput None)) /\
  chain sample_design 1 1 0 /\
  outputs sample_design !! 0%nat
  = Some (OutputSignal.mk "out" 2 [true; false; true]) /\
  (2 < 3)%nat /\
  snd (connect_input_to_input false sample_design 1 2)
  = (EmptyString, Done tt) /\
  chain (fst (connect_input_to_input false sample_design 1 2)) 2 2 0 /\
  isConnected 3 (fst (connect_input_to_input false sample_design 1 2)) 2
  = Done true /\
  value AsInt 3 (fst (connect_input_to_input false sample_design 1 2)) 2
  = Done (OutputSignal.value AsInt
            (OutputSignal.mk "out" 2 [true; false; true])).
Proof.
  assert (Hs : inputs sample_design !! 2%nat
               = Some (InputSignal.mk "c" 1 (ToOutput None))) by reflexivity.
  assert (Ho : outputs sample_design !! 0%nat
               = Some (OutputSignal.mk "out" 2 [true; false; true]))
    by reflexivity.
  assert (Hf : (2 < 3)%nat) by lia.
  split; [exact Hs | split; [exact sample_chain |
    split; [exact Ho | split; [exact Hf |]]]].
  exact (input_to_input_passes_through false sample_design 1 2 _ 1 0 _
           AsInt 3 Hs eq_refl sample_chain Ho Hf).
Defined.

(** X18: [connect()] does not refuse an input as its own source: on an
    input not yet connected the call goes through, in either build, and
    from then on neither [isConnected()] nor [value<T>()] ever returns, the
    recursion going round the input for ever. *)
Theorem self_connection_diverges (NDEBUG : bool) (d : Design) (this : nat)
  (s : InputSignal.t) :
  inputs d !! this = Some s ->
  InputSignal.m_signal s = ToOutput None ->
  connect_input_to_input NDEBUG d this this
  = (set_signal d this (ToInput this), (EmptyString, Done tt)) /\
  forall fuel T,
    isConnected fuel (set_signal d this (ToInput this)) this = NoFuel /\
    value T fuel (set_signal d this (ToInput this)) this = NoFuel.
Proof.
  intros Hs Hsig. split.
  - unfold connect_input_to_input, connect_input.
    exact (proj1 (connect_first_succeeds NDEBUG d this s (ToInput this)
                    Hs Hsig)).
  - intros fuel T. induction fuel as [|fuel [IHc IHv]]; [split; reflexivity|].
    cbn [isConnected value]. unfold deref. cbn [set_signal inputs].
    rewrite lookup_alter_eq, Hs.
    cbn [fmap option_fmap option_map obind InputSignal.m_signal].
    split; [exact IHc | exact IHv].
Qed.

Lemma self_connection_diverges_witness :
  inputs sample_design !! 2%nat = Some (InputSignal.mk "c" 1 (ToOutput None)) /\
  connect_input_to_input false sample_design 2 2
  = (set_signal sample_design 2 (ToInput 2), (EmptyString, Done tt)) /\
  forall fuel T,
    isConnected fuel (set_signal sample_design 2 (ToInput 2)) 2 = NoFuel /\
    value T fuel (set_signal sample_design 2 (ToInput 2)) 2 = NoFuel.
Proof.
  assert (Hs : inputs sample_design !! 2%nat
               = Some (InputSignal.mk "c" 1 (ToOutput None))) by reflexivity.
  split; [exact Hs |].
  exact (self_connection_diverges false sample_design 2 _ Hs eq_refl).
Defined.

(** X19: the test of [connect()] is not [isConnected()]: an input whose
    source is a pass-through input that was never connected reports
    [isConnected() == false] and has no value, yet [connect()] takes it for
    connected: it prints the error text and, in a build with assertions,
    stops there with the design as it was; with [NDEBUG] it returns and
    assigns the new source. *)
Theorem dangling_pass_through_is_refused (d : Design) (this j : nat)
  (s sj : InputSignal.t) (parent : string) :
  inputs d !! this = Some s ->
  InputSignal.m_signal s = ToInput j ->
  inputs d !! j = Some sj ->
  InputSignal.m_signal sj = ToOutput None ->
  components d !! InputSignal.m_parent s = Some parent ->
  (forall fuel T,
     isConnected (S (S fuel)) d this = Done false /\
     value T (S (S fuel)) d this = NullDeref) /\
  (forall other,
     connect false d this other
     = (d, ((already_connected_error (InputSignal.m_name s) parent
               (InputSignal.m_name sj) parent ++ nl)%string,
            Aborted (already_connected_error (InputSignal.m_name s) parent
                       (InputSignal.m_name sj) parent))) /\
     connect true d this other
     = (set_signal d this other,
        ((already_connected_error (InputSignal.m_name s) parent
            (InputSignal.m_name sj) parent ++ nl)%string, Done tt))).
Proof.
  intros Hs Hsig Hj Hjsig Hparent. split.
  - intros fuel T. cbn [isConnected value]. unfold deref.
    rewrite Hs. cbn [obind]. rewrite Hsig, Hj. cbn [obind].
    rewrite Hjsig. split; reflexivity.
  - intros other.
    pose proof (text_for_input d this s parent j sj Hparent Hsig Hj) as Htext.
    split.
    + exact (connect_refused false d this s _ other Hs
               ltac:(congruence) Htext).
    + exact (connect_refused true d this s _ other Hs
               ltac:(congruence) Htext).
Qed.

Lemma dangling_pass_through_is_refused_witness :
  inputs stuck_design !! 1%nat = Some (InputSignal.mk "q" 0 (ToInput 0)) /\
  inputs stuck_design !! 0%nat = Some (InputSignal.mk "p" 0 (ToOutput None)) /\
  components stuck_design !! 0%nat = Some "top"%string /\
  (forall fuel T,
     isConnected (S (S fuel)) stuck_design 1 = Done false /\
     value T (S (S fuel)) stuck_design 1 = NullDeref) /\
  (forall other,
     connect false stuck_design 1 other
     = (stuck_design,
        ((already_connected_error "q" "top" "p" "top" ++ nl)%string,
         Aborted (already_connected_error "q" "top" "p" "top"))) /\
     connect true stuck_design 1 other
     = (set_signal stuck_design 1 other,
        ((already_connected_error "q" "top" "p" "top" ++ nl)%string,
         Done tt))).
Proof.
  assert (H1 : inputs stuck_design !! 1%nat
               = Some (InputSignal.mk "q" 0 (ToInput 0))) by reflexivity.
  assert (H0 : inputs stuck_design !! 0%nat
               = Some (InputSignal.mk "p" 0 (ToOutput None))) by reflexivity.
  assert (Hp : components stuck_design !! 0%nat = Some "top"%string)
    by reflexivity.
  split; [exact H1 | split; [exact H0 | split; [exact Hp |]]].
  exact (dangling_pass_through_is_refused stuck_design 1 0 _ _ "top"
           H1 eq_refl H0 eq_refl Hp).
Defined.

(** ** Output signals: connection and propagation *)

Lemma propagate_connected (n : Netlist) (this other : nat)
  (oo : OutputSignal.t) :
  outputs (design n) !! other = Some oo ->
  m_propagationFunction n !! this = Some (getFunctor other) ->
  propagate n this
  = Returned (Done {| design := setValue (design n) this
                                  (OutputSignal.m_value oo);
                      m_propagationFunction := m_propagationFunction n |}).
Proof.
  intros Hoo Hf. unfold propagate. rewrite Hf.
  unfold getFunctor, deref. rewrite Hoo. reflexivity.
Qed.

(** X20: after [fromThisOutput >> toThisOutput], [propagate()] stores in
    the target the value the source holds when [propagate()] runs, not the
    one it held when the outputs were connected; the name and the parent of
    the target, every other output, the inputs and the components are left
    as they are. *)
Theorem propagate_copies_current_value (n : Netlist)
  (fromThisOutput toThisOutput : nat) (ot oo : OutputSignal.t)
  (v : list bool) :
  outputs (design n) !! toThisOutput = Some ot ->
  outputs (design n) !! fromThisOutput = Some oo ->
  exists n',
    propagate
      {| design :=
           setValue (design (connect_output_to_output n fromThisOutput
                               toThisOutput)) fromThisOutput v;
         m_propagationFunction :=
           m_propagationFunction
             (connect_output_to_output n fromThisOutput toThisOutput) |}
      toThisOutput
    = Returned (Done n') /\
    outputs (design n') !! toThisOutput
    = Some (OutputSignal.mk (OutputSignal.m_name ot)
                            (OutputSignal.m_parent ot) v) /\
    (forall k, k <> toThisOutput -> k <> fromThisOutput ->
       outputs (design n') !! k = outputs (design n) !! k) /\
    inputs (design n') = inputs (design n) /\
    components (design n') = components (design n).
Proof.
  intros Hot Hoo.
  unfold connect_output_to_output, OutputSignal_connect,
    setPropagationFunction.
  cbn [design m_propagationFunction].
  eexists. split.
  - apply (propagate_connected _ toThisOutput fromThisOutput
             (OutputSignal.mk (OutputSignal.m_name oo)
                              (OutputSignal.m_parent oo) v)).
    + cbn [design setValue outputs]. rewrite lookup_alter_eq, Hoo.
      reflexivity.
    + cbn [m_propagationFunction]. apply lookup_insert_eq.
  - cbn [design setValue outputs inputs components OutputSignal.m_value].
    split; [|split; [|split; reflexivity]].
    + rewrite lookup_alter_eq, lookup_alter.
      destruct (decide (fromThisOutput = toThisOutput)) as [->|Hne].
      * rewrite Hot. reflexivity.
      * rewrite Hot. reflexivity.
    + intros k Hk1 Hk2. rewrite !lookup_alter_ne by congruence.
      reflexivity.
Qed.

Lemma propagate_copies_current_value_witness :
  let n := mkNetlist
             {| components := <[0%nat := "top"%string]> ∅;
                outputs := <[1%nat := OutputSignal.mk "y" 0 [false; false]]>
                             (<[0%nat := OutputSignal.mk "x" 0 [true; false]]>
                                ∅);
                inputs := ∅ |} ∅ in
  outputs (design n) !! 1%nat = Some (OutputSignal.mk "y" 0 [false; false]) /\
  outputs (design n) !! 0%nat = Some (OutputSignal.mk "x" 0 [true; false]) /\
  exists n',
    propagate
      {| design := setValue (design (connect_output_to_output n 0 1)) 0
                     [true; true];
         m_propagationFunction :=
           m_propagationFunction (connect_output_to_output n 0 1) |} 1
    = Returned (Done n') /\
    outputs (design n') !! 1%nat
    = Some (OutputSignal.mk "y" 0 [true; true]).
Proof.
  intros n.
  assert (H1 : outputs (design n) !! 1%nat
               = Some (OutputSignal.mk "y" 0 [false; false])) by reflexivity.
  assert (H0 : outputs (design n) !! 0%nat
               = Some (OutputSignal.mk "x" 0 [true; false])) by reflexivity.
  split; [exact H1 | split; [exact H0 |]].
  destruct (propagate_copies_current_value n 0 1 _ _ [true; true] H1 H0)
    as (n' & Hp & Hv & _).
  exists n'. split; [exact Hp | exact Hv].
Defined.

(** X21: [hasPropagationFunction()] is false exactly when [propagate()]
    throws [std::bad_function_call]; after [connect()] it is true and
    [propagate()] no longer throws; an output may be connected again: no
    error is raised and the earlier source is forgotten, the netlist being
    the one the last [connect()] alone would have given. *)
Theorem output_connect_lifecycle (n : Netlist) (this : nat) :
  (hasPropagationFunction n this = false
   <-> propagate n this = bad_function_call) /\
  (forall otherOutput,
     hasPropagationFunction (OutputSignal_connect n this otherOutput) this
     = true /\
     propagate (OutputSignal_connect n this otherOutput) this
     <> bad_function_call) /\
  (forall first last,
     OutputSignal_connect (OutputSignal_connect n this first) this last
     = OutputSignal_connect n this last).
Proof.
  split; [|split].
  - unfold hasPropagationFunction, propagate.
    destruct (m_propagationFunction n !! this);
      split; intros Hx; try discriminate; reflexivity.
  - intros otherOutput.
    unfold hasPropagationFunction, propagate, OutputSignal_connect,
      setPropagationFunction.
    cbn [m_propagationFunction]. rewrite lookup_insert_eq.
    split; [reflexivity | discriminate].
  - intros first last.
    unfold OutputSignal_connect, setPropagationFunction.
    cbn [design m_propagationFunction]. rewrite insert_insert_eq.
    reflexivity.
Qed.

(** X22: an input connected to an output reads, after that output has
    propagated from the output it is connected to, the value of the
    latter. *)
Theorem input_reads_propagated_value (n : Netlist)
  (this fromThisOutput toThisOutput : nat) (s : InputSignal.t)
  (ot oo : OutputSignal.t) (T : ValueType) (fuel : nat) :
  inputs (design n) !! this = Some s ->
  InputSignal.m_signal s = ToOutput (Some toThisOutput) ->
  outputs (design n) !! toThisOutput = Some ot ->
  outputs (design n) !! fromThisOutput = Some oo ->
  exists n',
    propagate (connect_output_to_output n fromThisOutput toThisOutput)
              toThisOutput
    = Returned (Done n') /\
    value T (S fuel) (design n') this
    = Done (OutputSignal.value T
              (OutputSignal.mk (OutputSignal.m_name ot)
                               (OutputSignal.m_parent ot)
                               (OutputSignal.m_value oo))).
Proof.
  intros Hs Hsig Hot Hoo.
  eexists. split.
  - apply (propagate_connected _ toThisOutput fromThisOutput oo).
    + exact Hoo.
    + unfold connect_output_to_output, OutputSignal_connect,
        setPropagationFunction.
      cbn [m_propagationFunction]. apply lookup_insert_eq.
  - cbn [value design]. unfold deref.
    cbn [setValue inputs outputs connect_output_to_output
         OutputSignal_connect setPropagationFunction design].
    rewrite Hs. cbn [obind]. rewrite Hsig, lookup_alter_eq, Hot.
    reflexivity.
Qed.

Lemma input_reads_propagated_value_witness :
  let n := mkNetlist
             {| components := <[0%nat := "top"%string]> ∅;
                outputs := <[1%nat := OutputSignal.mk "y" 0 [false; false]]>
                             (<[0%nat := OutputSignal.mk "x" 0 [true; false]]>
                                ∅);
                inputs := <[0%nat := InputSignal.mk "in" 0
                                       (ToOutput (Some 1%nat))]> ∅ |} ∅ in
  inputs (design n) !! 0%nat
  = Some (InputSignal.mk "in" 0 (ToOutput (Some 1%nat))) /\
  outputs (design n) !! 1%nat = Some (OutputSignal.mk "y" 0 [false; false]) /\
  outputs (design n) !! 0%nat = Some (OutputSignal.mk "x" 0 [true; false]) /\
  exists n',
    propagate (connect_output_to_output n 0 1) 1 = Returned (Done n') /\
    value AsUnsigned 1 (design n') 0
    = Done (OutputSignal.value AsUnsigned
              (OutputSignal.mk "y" 0 [true; false])).
Proof.
  intros n.
  assert (Hs : inputs (design n) !! 0%nat
               = Some (InputSignal.mk "in" 0 (ToOutput (Some 1%nat))))
    by reflexivity.
  assert (H1 : outputs (design n) !! 1%nat
               = Some (OutputSignal.mk "y" 0 [false; false])) by reflexivity.
  assert (H0 : outputs (design n) !! 0%nat
               = Some (OutputSignal.mk "x" 0 [true; false])) by reflexivity.
  split; [exact Hs | split; [exact H1 | split; [exact H0 |]]].
  exact (input_reads_propagated_value n 0 0 1 _ _ _ AsUnsigned 0
           Hs eq_refl H1 H0).
Defined.

(** ** What a successful and a refused [connect()] leave behind *)

(** X23: a [connect()] that goes through changes the stored reference of
    the input and nothing else, in either build: its name and parent, every
    other input, the outputs and the components are as they were. *)
Theorem connect_changes_only_source (NDEBUG : bool) (d : Design)
  (this : nat) (s : InputSignal.t) (other : SignalRef) :
  inputs d !! this = Some s ->
  InputSignal.m_signal s = ToOutput None ->
  snd (connect NDEBUG d this other) = (EmptyString, Done tt) /\
  inputs (fst (connect NDEBUG d this other)) !! this
  = Some (InputSignal.mk (InputSignal.m_name s) (InputSignal.m_parent s)
                         other) /\
  (forall i, i <> this ->
     inputs (fst (connect NDEBUG d this other)) !! i = inputs d !! i) /\
  outputs (fst (connect NDEBUG d this other)) = outputs d /\
  components (fst (connect NDEBUG d this other)) = components d.
Proof.
  intros Hs Hsig.
  rewrite (proj1 (connect_first_succeeds NDEBUG d this s other Hs Hsig)).
  cbn [fst snd set_signal inputs outputs components].
  split; [reflexivity | split; [| split; [| split; reflexivity]]].
  - rewrite lookup_alter_eq, Hs. reflexivity.
  - intros i Hne. apply lookup_alter_ne. congruence.
Qed.

Lemma connect_changes_only_source_witness :
  inputs sample_design !! 2%nat = Some (InputSignal.mk "c" 1 (ToOutput None)) /\
  snd (connect false sample_design 2 (ToInput 1)) = (EmptyString, Done tt) /\
  inputs (fst (connect false sample_design 2 (ToInput 1))) !! 2%nat
  = Some (InputSignal.mk "c" 1 (ToInput 1)).
Proof.
  assert (Hs : inputs sample_design !! 2%nat
               = Some (InputSignal.mk "c" 1 (ToOutput None))) by reflexivity.
  split; [exact Hs |].
  destruct (connect_changes_only_source false sample_design 2 _ (ToInput 1)
              Hs eq_refl) as (Hok & Hthis & _).
  split; [exact Hok | exact Hthis].
Defined.

(** X24: the text that [connect()] prints on an input already connected,
    in either build, names the input and its component and then, as the
    signal already connected, the output or the input the reference points
    to; as the component of that signal it names the parent of the output
    in the first case, and in the second the parent of the refused input
    itself, not that of the source input.  With assertions the call stops
    after printing and the design is as it was; with [NDEBUG] it returns
    and the reference is assigned. *)
Theorem refused_connect_text (d : Design) (this : nat) (s : InputSignal.t)
  (parent : string) (other : SignalRef) :
  inputs d !! this = Some s ->
  components d !! InputSignal.m_parent s = Some parent ->
  (forall o os c,
     InputSignal.m_signal s = ToOutput (Some o) ->
     outputs d !! o = Some os ->
     components d !! OutputSignal.m_parent os = Some c ->
     let err :=
       ("ERROR! trying to connect an input which has already been connected."
        ++ nl ++ "Signal: " ++ tab ++ tab ++ "'" ++ InputSignal.m_name s
        ++ "'" ++ nl ++ "Of component: " ++ tab ++ "'" ++ parent
        ++ "'" ++ nl ++ "Is already connected to " ++ nl
        ++ "Signal: " ++ tab ++ tab ++ "'" ++ OutputSignal.m_name os
        ++ "'" ++ nl ++ "Of component: " ++ tab ++ "'" ++ c
        ++ "'" ++ nl)%string in
     connect false d this other = (d, ((err ++ nl)%string, Aborted err)) /\
     connect true d this other
     = (set_signal d this other, ((err ++ nl)%string, Done tt))) /\
  (forall j sj,
     InputSignal.m_signal s = ToInput j ->
     inputs d !! j = Some sj ->
     let err :=
       ("ERROR! trying to connect an input which has already been connected."
        ++ nl ++ "Signal: " ++ tab ++ tab ++ "'" ++ InputSignal.m_name s
        ++ "'" ++ nl ++ "Of component: " ++ tab ++ "'" ++ parent
        ++ "'" ++ nl ++ "Is already connected to " ++ nl
        ++ "Signal: " ++ tab ++ tab ++ "'" ++ InputSignal.m_name sj
        ++ "'" ++ nl ++ "Of component: " ++ tab ++ "'" ++ parent
        ++ "'" ++ nl)%string in
     connect false d this other = (d, ((err ++ nl)%string, Aborted err)) /\
     connect true d this other
     = (set_signal d this other, ((err ++ nl)%string, Done tt))).
Proof.
  intros Hs Hparent. split.
  - intros o os c Hsig Hos Hc.
    pose proof (text_for_output d this s parent o os c Hs Hparent Hsig Hos Hc)
      as Htext.
    split.
    + exact (connect_refused false d this s _ other Hs
               ltac:(congruence) Htext).
    + exact (connect_refused true d this s _ other Hs
               ltac:(congruence) Htext).
  - intros j sj Hsig Hj.
    pose proof (text_for_input d this s parent j sj Hparent Hsig Hj) as Htext.
    split.
    + exact (connect_refused false d this s _ other Hs
               ltac:(congruence) Htext).
    + exact (connect_refused true d this s _ other Hs
               ltac:(congruence) Htext).
Qed.

Lemma refused_connect_text_witness :
  inputs sample_design !! 1%nat = Some (InputSignal.mk "b" 1 (ToInput 0)) /\
  components sample_design !! 1%nat = Some "inner"%string /\
  inputs sample_design !! 0%nat
  = Some (InputSignal.mk "a" 0 (ToOutput (Some 0%nat))) /\
  exists err,
    connect false sample_design 1 (ToInput 2)
    = (sample_design, ((err ++ nl)%string, Aborted err)) /\
    connect true sample_design 1 (ToInput 2)
    = (set_signal sample_design 1 (ToInput 2), ((err ++ nl)%string, Done tt)).
Proof.
  assert (Hs : inputs sample_design !! 1%nat
               = Some (InputSignal.mk "b" 1 (ToInput 0))) by reflexivity.
  assert (Hp : components sample_design !! 1%nat = Some "inner"%string)
    by reflexivity.
  assert (Hj : inputs sample_design !! 0%nat
               = Some (InputSignal.mk "a" 0 (ToOutput (Some 0%nat))))
    by reflexivity.
  split; [exact Hs | split; [exact Hp | split; [exact Hj |]]].
  eexists.
  exact (proj2 (refused_connect_text sample_design 1 _ "inner" (ToInput 2)
                  Hs Hp) 0%nat _ eq_refl Hj).
Defined.
